(** * Background synchronisation jobs: cron service and integrations processor

    A shallow embedding of
      - packages/server/src/app.cron.service.ts  (class CronService)
      - the integrations queue processor         (class IntegrationsProcessor)
    together with the properties of their three jobs: schema discovery over
    customer records, provider event ingestion into the analytical sink, and
    the warehouse synchronisation of customer records. *)

From Stdlib Require Import ZArith Lia.
From stdpp Require Import base option list strings gmap.

(* ===================================================================== *)
(** ** The fragment of JavaScript the jobs compute with *)
(* ===================================================================== *)

Module JS.

(** A JavaScript number: NaN or a finite value.  Every number these jobs
    compute with is a count, an integer frequency or a time value in
    (milli)seconds, so finite numbers are integers here. *)
Inductive number :=
| NaN
| Fin (z : Z).

Definition num_add (a b : number) : number :=
  match a, b with
  | Fin x, Fin y => Fin (x + y)
  | _, _ => NaN
  end.

Definition num_sub (a b : number) : number :=
  match a, b with
  | Fin x, Fin y => Fin (x - y)
  | _, _ => NaN
  end.

Definition num_mul (a b : number) : number :=
  match a, b with
  | Fin x, Fin y => Fin (x * y)
  | _, _ => NaN
  end.

(** [a < b] on numbers: false as soon as one side is NaN. *)
Definition num_lt (a b : number) : bool :=
  match a, b with
  | Fin x, Fin y => (x <? y)%Z
  | _, _ => false
  end.

(** [a > b] is [b < a]. *)
Definition num_gt (a b : number) : bool := num_lt b a.

#[local] Set Warnings "-register-all".

(** Values held by a customer record or a warehouse row: scalars, dates and
    arrays of them (spec, data model: "scalar, array, null/absent").  A
    [VDate] carries the time value of the Date object. *)
Inductive value :=
| VUndefined
| VNull
| VBool (b : bool)
| VNum (n : number)
| VStr (s : string)
| VDate (t : number)
| VArr (items : list value).

(** ToBoolean.  Objects (dates, arrays) are always truthy, whatever they
    hold: an invalid Date is truthy too. *)
Definition truthy (v : value) : bool :=
  match v with
  | VUndefined | VNull => false
  | VBool b => b
  | VNum NaN => false
  | VNum (Fin z) => negb (z =? 0)%Z
  | VStr s => negb (String.eqb s "")
  | VDate _ | VArr _ => true
  end.

(** [a || b] *)
Definition or_else (a b : value) : value := if truthy a then a else b.

(** [v[i]] on an array; [undefined] out of range.  The jobs never index a
    value of another shape. *)
Definition index (v : value) (i : nat) : value :=
  match v with
  | VArr items => default VUndefined (items !! i)
  | _ => VUndefined
  end.

(** Structural equality of values, the match a store query performs on a
    scalar field. *)
Fixpoint value_eqb (a b : value) : bool :=
  match a, b with
  | VUndefined, VUndefined => true
  | VNull, VNull => true
  | VBool x, VBool y => Bool.eqb x y
  | VNum NaN, VNum NaN => true
  | VNum (Fin x), VNum (Fin y) => (x =? y)%Z
  | VStr x, VStr y => String.eqb x y
  | VDate NaN, VDate NaN => true
  | VDate (Fin x), VDate (Fin y) => (x =? y)%Z
  | VArr xs, VArr ys =>
      (fix all2 (xs ys : list value) : bool :=
         match xs, ys with
         | [], [] => true
         | x :: xs', y :: ys' => value_eqb x y && all2 xs' ys'
         | _, _ => false
         end) xs ys
  | _, _ => false
  end.

(** The largest time value of a Date, in milliseconds either side of the
    epoch. *)
Definition MAX_TIME : Z := 8640000000000000.

(** TimeClip: the time value [new Date(t)] holds for a number [t].  Beyond
    [MAX_TIME] the Date is invalid. *)
Definition timeClip (t : number) : number :=
  match t with
  | NaN => NaN
  | Fin z => if (Z.abs z <=? MAX_TIME)%Z then Fin z else NaN
  end.

(** The time value of [new Date(x)] for [x] a string or [undefined] (the
    only arguments of that shape in the sources), given [Date.parse]. *)
Definition Date_of (parse : string -> number) (x : option string) : number :=
  match x with
  | None => NaN
  | Some s => timeClip (parse s)
  end.

(** Thrown values are not inspected by any job: they are logged or
    propagated.  An outcome is a normal completion or a throw. *)
Inductive Outcome (A : Type) :=
| Ok (a : A)
| Throw (e : string).
Arguments Ok {A} a.
Arguments Throw {A} e.

End JS.

Import JS.

(* ===================================================================== *)
(** ** tst-reflect and class-validator *)
(* ===================================================================== *)

Module Reflect.

Record Type_ := { name : string; isArray : bool }.

(** Modelled from the spec: [getType] belongs to the tst-reflect library,
    which is not part of the sources.  Section 4.1: "Base type comes from the
    value's runtime shape (string/number/boolean/date)"; [isArray] holds iff
    the value is a sequence. *)
Definition getType (v : value) : Type_ :=
  match v with
  | VUndefined => {| name := "undefined"; isArray := false |}
  | VNull => {| name := "null"; isArray := false |}
  | VBool _ => {| name := "Boolean"; isArray := false |}
  | VNum _ => {| name := "Number"; isArray := false |}
  | VStr _ => {| name := "String"; isArray := false |}
  | VDate _ => {| name := "Date"; isArray := false |}
  | VArr _ => {| name := "Array"; isArray := true |}
  end.

End Reflect.

(* ===================================================================== *)
(** ** CronService *)
(* ===================================================================== *)

Module CronService.

Definition BATCH_SIZE : nat := 500.
Definition KEYS_TO_SKIP : list string := ["__v"; "_id"; "audiences"; "ownerId"].

(** A customer document as [toObject()] returns it. *)
Abbreviation Customer := (gmap string value).

(** One document of the customer-keys collection. *)
Record CustomerKeys := { key : string; type : string; isArray : bool }.

(* --------------------------------------------------------------------- *)
(** *** handleCustomerKeysCron *)
(* --------------------------------------------------------------------- *)

Section CustomerKeysCron.

(** class-validator's string validators.  Both answer [false] on anything
    that is not a string. *)
Variable isEmailString : string -> bool.
Variable isDateStringString : string -> bool.

Definition isEmail (v : value) : bool :=
  match v with VStr s => isEmailString s | _ => false end.

Definition isDateString (v : value) : bool :=
  match v with VStr s => isDateStringString s | _ => false end.

(** The names every plain object inherits from [Object.prototype]: on
    [const keys = {}], [keys[name]] is a function (or, for [__proto__], the
    prototype itself) although [name] is no key of [keys]. *)
Definition objectPrototypeKeys : list string :=
  ["constructor"; "__defineGetter__"; "__defineSetter__"; "hasOwnProperty";
   "__lookupGetter__"; "__lookupSetter__"; "isPrototypeOf"; "propertyIsEnumerable";
   "toString"; "valueOf"; "__proto__"; "toLocaleString"].

(** What [keys[key].push(...)] throws when [keys[key]] is such an inherited
    member. *)
Definition pushError : string := "TypeError: keys[key].push is not a function".

(** A left fold that a throw ends. *)
Fixpoint foldOutcome {A B} (f : A → B → Outcome A) (a : A) (l : list B) : Outcome A :=
  match l with
  | [] => Ok a
  | x :: rest =>
      match f a x with
      | Ok a' => foldOutcome f a' rest
      | Throw e => Throw e
      end
  end.

(** The body of [for (const key of Object.keys(obj))].  [keys] holds the own
    properties of the object the code uses as a map.  [if (keys[key])] is
    true for an own sample list and for an inherited member; on the latter
    [push] is not a function. *)
Definition addSample (keys : gmap string (list value)) (kv : string * value)
  : Outcome (gmap string (list value)) :=
  if bool_decide (kv.1 ∈ KEYS_TO_SKIP) then Ok keys
  else match keys !! kv.1 with
       | Some samples => Ok (<[kv.1 := samples ++ [kv.2]]> keys)
       | None =>
           if bool_decide (kv.1 ∈ objectPrototypeKeys) then Throw pushError
           else Ok (<[kv.1 := [kv.2]]> keys)
       end.

Definition scanCustomer (keys : gmap string (list value)) (obj : Customer)
  : Outcome (gmap string (list value)) :=
  foldOutcome addSample keys (map_to_list obj).

(** [batch.forEach(...)] *)
Definition scanBatch (keys : gmap string (list value)) (batch : list Customer)
  : Outcome (gmap string (list value)) :=
  foldOutcome scanCustomer keys batch.

(** [find().skip(current).limit(BATCH_SIZE)] *)
Definition findBatch (customers : list Customer) (current : nat) : list Customer :=
  take BATCH_SIZE (drop current customers).

(** [while (current < documentsCount) { ...; current += BATCH_SIZE }].
    [documentsCount] is the collection's estimated count, read once.  A
    throw leaves the loop. *)
Fixpoint scanLoop (fuel : nat) (customers : list Customer) (documentsCount current : nat)
  (keys : gmap string (list value)) : option (Outcome (gmap string (list value))) :=
  if bool_decide (current < documentsCount) then
    match fuel with
    | O => None
    | S fuel' =>
        match scanBatch keys (findBatch customers current) with
        | Ok keys' =>
            scanLoop fuel' customers documentsCount (current + BATCH_SIZE) keys'
        | Throw e => Some (Throw e)
        end
    end
  else Some (Ok keys).

(** [item !== '' && item !== undefined && item !== null] *)
Definition usable (item : value) : bool :=
  match item with
  | VStr s => negb (String.eqb s "")
  | VUndefined | VNull => false
  | _ => true
  end.

(** [keys[key].find(...)]: the first usable sample, [undefined] if none. *)
Definition validItemOf (samples : list value) : value :=
  default VUndefined (List.find usable samples).

(** The inference on one field; [None] is the [continue]. *)
Definition inferKey (k : string) (samples : list value) : option CustomerKeys :=
  let validItem := validItemOf samples in
  if negb (usable validItem) then None
  else
    let keyType := Reflect.getType validItem in
    let isArray := Reflect.isArray keyType in
    let type0 :=
      if isArray then Reflect.name (Reflect.getType (index validItem 0))
      else Reflect.name keyType in
    let type2 :=
      if String.eqb type0 "String" then
        let type1 := if isEmail validItem then "Email" else type0 in
        if isDateString validItem then "Date" else type1
      else type0 in
    Some {| key := k; type := type2; isArray := isArray |}.

(** The customer-keys collection (one document per key) and the upserts a
    run issued, in order. *)
Record KeysModel := { documents : gmap string CustomerKeys; upserts : list CustomerKeys }.

(** [updateOne({ key }, { $set: { key, type, isArray } }, { upsert: true })] *)
Definition updateOne (m : KeysModel) (ck : CustomerKeys) : KeysModel :=
  {| documents := <[key ck := ck]> (documents m); upserts := upserts m ++ [ck] |}.

Definition writeKey (m : KeysModel) (entry : string * list value) : KeysModel :=
  match inferKey entry.1 entry.2 with
  | Some ck => updateOne m ck
  | None => m
  end.

(** [for (const key of Object.keys(keys))] *)
Definition writeKeys (keys : gmap string (list value)) (m : KeysModel) : KeysModel :=
  foldl writeKey m (map_to_list keys).

Definition scanAll (customers : list Customer) (documentsCount : nat)
  : option (Outcome (gmap string (list value))) :=
  scanLoop (S documentsCount) customers documentsCount 0 ∅.

(** The whole job.  The [catch] logs what the scan threw and the job ends
    there: the writes come after the scan, so none has been made. *)
Definition handleCustomerKeysCron (customers : list Customer) (documentsCount : nat)
  (m : KeysModel) : option KeysModel :=
  match scanAll customers documentsCount with
  | None => None
  | Some (Ok keys) => Some (writeKeys keys m)
  | Some (Throw e) => Some m
  end.

(** **** The scan: termination, throws, and what it accumulates *)

Lemma scanLoop_terminates fuel customers documentsCount current keys :
  documentsCount ≤ current + fuel * BATCH_SIZE →
  is_Some (scanLoop fuel customers documentsCount current keys).
Proof.
  revert current keys.
  induction fuel as [|fuel IH]; intros current keys Hfuel; simpl.
  - rewrite bool_decide_eq_false_2 by lia. eauto.
  - case_bool_decide; [|eauto].
    destruct (scanBatch _ _); [|eauto].
    apply IH. unfold BATCH_SIZE in *. lia.
Qed.

Lemma scanAll_terminates customers documentsCount :
  is_Some (scanAll customers documentsCount).
Proof.
  apply scanLoop_terminates. unfold BATCH_SIZE. lia.
Qed.

Lemma prototype_keys_not_skipped k :
  k ∈ objectPrototypeKeys → k ∉ KEYS_TO_SKIP.
Proof.
  revert k. apply Forall_forall.
  apply (bool_decide_unpack (Forall (λ k, k ∉ KEYS_TO_SKIP) objectPrototypeKeys)).
  vm_compute. exact I.
Qed.

(** No name inherited from the prototype is an own key. *)
Definition prototypeFree (keys : gmap string (list value)) : Prop :=
  ∀ k, k ∈ objectPrototypeKeys → keys !! k = None.

Lemma addSample_Ok_other keys kv keys' k :
  addSample keys kv = Ok keys' →
  kv.1 ≠ k ∨ k ∈ KEYS_TO_SKIP → keys' !! k = keys !! k.
Proof.
  unfold addSample. intros Hadd Hk.
  case_bool_decide as Hskip; [by injection Hadd as <-|].
  assert (kv.1 ≠ k) as Hne
    by (destruct Hk as [?|Hk]; [done|intros Heq; apply Hskip; by rewrite Heq]).
  destruct (keys !! kv.1).
  - injection Hadd as <-. by rewrite lookup_insert_ne.
  - case_bool_decide; [done|]. injection Hadd as <-. by rewrite lookup_insert_ne.
Qed.

Lemma addSample_Ok_same keys k v keys' :
  addSample keys (k, v) = Ok keys' → k ∉ KEYS_TO_SKIP →
  keys' !! k = Some (default [] (keys !! k) ++ [v]).
Proof.
  unfold addSample. simpl. intros Hadd Hskip.
  rewrite bool_decide_eq_false_2 in Hadd by done.
  destruct (keys !! k).
  - injection Hadd as <-. apply lookup_insert_eq.
  - case_bool_decide; [done|]. injection Hadd as <-. apply lookup_insert_eq.
Qed.

Lemma addSample_Throw keys kv e :
  addSample keys kv = Throw e → e = pushError ∧ kv.1 ∈ objectPrototypeKeys.
Proof.
  unfold addSample. case_bool_decide; [done|].
  destruct (keys !! kv.1); [done|]. case_bool_decide; [|done].
  by intros [= <-].
Qed.

Lemma addSample_prototypeFree keys kv keys' :
  addSample keys kv = Ok keys' → prototypeFree keys → prototypeFree keys'.
Proof.
  unfold addSample. intros Hadd Hfree k Hk.
  case_bool_decide; [injection Hadd as <-; by apply Hfree|].
  destruct (keys !! kv.1) eqn:Hown.
  - injection Hadd as <-. rewrite lookup_insert_ne; [by apply Hfree|].
    intros Heq. rewrite Heq, (Hfree k Hk) in Hown. done.
  - case_bool_decide as Hproto; [done|]. injection Hadd as <-.
    rewrite lookup_insert_ne; [by apply Hfree|].
    intros Heq. apply Hproto. by rewrite Heq.
Qed.

Lemma foldOutcome_app {A B} (f : A → B → Outcome A) a (l1 l2 : list B) :
  foldOutcome f a (l1 ++ l2)
  = match foldOutcome f a l1 with
    | Ok a' => foldOutcome f a' l2
    | Throw e => Throw e
    end.
Proof.
  revert a. induction l1 as [|x l1 IH]; intros a; simpl; [done|].
  by destruct (f a x).
Qed.

Lemma entries_Ok_other (entries : list (string * value)) keys keys' k :
  foldOutcome addSample keys entries = Ok keys' →
  k ∉ entries.*1 ∨ k ∈ KEYS_TO_SKIP → keys' !! k = keys !! k.
Proof.
  revert keys. induction entries as [|e entries IH]; intros keys; simpl.
  - by intros [= <-].
  - destruct (addSample keys e) as [keys1|] eqn:Hadd; [|done].
    intros Hrest Hk. rewrite (IH _ Hrest).
    + apply (addSample_Ok_other _ _ _ _ Hadd).
      destruct Hk as [Hk|Hk]; [left|by right].
      by apply not_elem_of_cons in Hk as [? _].
    + destruct Hk as [Hk|Hk]; [left|by right].
      by apply not_elem_of_cons in Hk as [_ ?].
Qed.

Lemma entries_Ok_present (entries : list (string * value)) keys keys' k v :
  foldOutcome addSample keys entries = Ok keys' →
  NoDup entries.*1 → (k, v) ∈ entries → k ∉ KEYS_TO_SKIP →
  keys' !! k = Some (default [] (keys !! k) ++ [v]).
Proof.
  revert keys. induction entries as [|e entries IH]; intros keys; simpl;
    [intros _ _ Hin; by apply elem_of_nil in Hin|].
  destruct (addSample keys e) as [keys1|] eqn:Hadd; [|done].
  intros Hrest Hnd Hin Hskip. apply NoDup_cons in Hnd as [Hfresh Hnd].
  apply elem_of_cons in Hin as [<-|Hin].
  - rewrite (entries_Ok_other _ _ _ _ Hrest) by (by left).
    by apply addSample_Ok_same.
  - rewrite (IH _ Hrest) by done.
    rewrite (addSample_Ok_other _ _ _ k Hadd); [done|].
    left. intros Heq. apply Hfresh. rewrite Heq.
    apply list_elem_of_fmap. by exists (k, v).
Qed.

Lemma entries_Throw (entries : list (string * value)) keys e :
  foldOutcome addSample keys entries = Throw e →
  e = pushError ∧ ∃ k v, (k, v) ∈ entries ∧ k ∈ objectPrototypeKeys.
Proof.
  revert keys. induction entries as [|[k v] entries IH]; intros keys; simpl; [done|].
  destruct (addSample keys (k, v)) as [keys1|e1] eqn:Hadd.
  - intros Hrest. destruct (IH _ Hrest) as (-> & k' & v' & Hin & Hproto).
    split; [done|]. exists k', v'. split; [by right|done].
  - intros [= <-]. apply addSample_Throw in Hadd as [-> Hproto].
    split; [done|]. exists k, v. split; [by left|done].
Qed.

Lemma entries_prototypeFree (entries : list (string * value)) keys keys' :
  foldOutcome addSample keys entries = Ok keys' →
  prototypeFree keys → prototypeFree keys'.
Proof.
  revert keys. induction entries as [|e entries IH]; intros keys; simpl.
  - by intros [= <-].
  - destruct (addSample keys e) as [keys1|] eqn:Hadd; [|done].
    intros Hrest Hfree. apply (IH _ Hrest). by eapply addSample_prototypeFree.
Qed.

(** One document. *)
Lemma scanCustomer_Ok_lookup keys (obj : Customer) keys' k :
  scanCustomer keys obj = Ok keys' →
  keys' !! k
  = if bool_decide (k ∈ KEYS_TO_SKIP) then keys !! k
    else match obj !! k with
         | Some v => Some (default [] (keys !! k) ++ [v])
         | None => keys !! k
         end.
Proof.
  unfold scanCustomer. intros Hscan.
  case_bool_decide as Hskip; [by apply (entries_Ok_other _ _ _ _ Hscan); right|].
  destruct (obj !! k) as [v|] eqn:Hk.
  - apply (entries_Ok_present _ _ _ _ _ Hscan); [apply NoDup_fst_map_to_list| |done].
    by apply elem_of_map_to_list.
  - apply (entries_Ok_other _ _ _ _ Hscan). left.
    intros Hin. apply list_elem_of_fmap in Hin as ([k' v] & -> & Hin).
    apply elem_of_map_to_list in Hin. simpl in Hk. congruence.
Qed.

Lemma scanCustomer_Throw keys (obj : Customer) e :
  scanCustomer keys obj = Throw e →
  e = pushError ∧ ∃ k, is_Some (obj !! k) ∧ k ∈ objectPrototypeKeys.
Proof.
  unfold scanCustomer. intros Hscan.
  apply entries_Throw in Hscan as (-> & k & v & Hin & Hproto).
  split; [done|]. exists k. split; [|done].
  apply elem_of_map_to_list in Hin. eauto.
Qed.

Lemma scanCustomer_prototype keys (obj : Customer) k :
  prototypeFree keys → is_Some (obj !! k) → k ∈ objectPrototypeKeys →
  scanCustomer keys obj = Throw pushError.
Proof.
  intros Hfree [v Hk] Hproto.
  destruct (scanCustomer keys obj) as [keys'|e] eqn:Hscan.
  - pose proof (scanCustomer_Ok_lookup _ _ _ k Hscan) as Hlookup.
    rewrite bool_decide_eq_false_2, Hk in Hlookup
      by (by apply prototype_keys_not_skipped).
    unfold scanCustomer in Hscan.
    by rewrite (entries_prototypeFree _ _ _ Hscan Hfree k Hproto) in Hlookup.
  - by apply scanCustomer_Throw in Hscan as [-> _].
Qed.

(** A batch of documents. *)
Lemma scanBatch_app keys (batch1 batch2 : list Customer) :
  scanBatch keys (batch1 ++ batch2)
  = match scanBatch keys batch1 with
    | Ok keys' => scanBatch keys' batch2
    | Throw e => Throw e
    end.
Proof. apply foldOutcome_app. Qed.

Lemma scanBatch_prototypeFree keys (batch : list Customer) keys' :
  scanBatch keys batch = Ok keys' → prototypeFree keys → prototypeFree keys'.
Proof.
  unfold scanBatch. revert keys.
  induction batch as [|obj batch IH]; intros keys; simpl.
  - by intros [= <-].
  - destruct (scanCustomer keys obj) as [keys1|] eqn:Hone; [|done].
    intros Hrest Hfree. apply (IH _ Hrest).
    unfold scanCustomer in Hone. by eapply entries_prototypeFree.
Qed.

Lemma scanBatch_Ok_lookup keys (batch : list Customer) keys' k :
  scanBatch keys batch = Ok keys' →
  keys' !! k
  = if bool_decide (k ∈ KEYS_TO_SKIP) then keys !! k
    else match omap (λ obj : Customer, obj !! k) batch with
         | [] => keys !! k
         | values => Some (default [] (keys !! k) ++ values)
         end.
Proof.
  unfold scanBatch. revert keys.
  induction batch as [|obj batch IH]; intros keys; simpl.
  - intros [= <-]. by case_bool_decide.
  - destruct (scanCustomer keys obj) as [keys1|] eqn:Hone; [|done].
    intros Hrest. rewrite (IH _ Hrest), (scanCustomer_Ok_lookup _ _ _ k Hone).
    case_bool_decide; [done|].
    destruct (obj !! k) as [v|]; [|done].
    change (list_omap Customer value (λ obj0 : Customer, obj0 !! k) batch)
      with (omap (λ obj0 : Customer, obj0 !! k) batch).
    destruct (omap _ batch) as [|y values]; [done|].
    f_equal. change (default [] (Some ?l)) with l.
    by rewrite <- (app_assoc _ [v] (y :: values)).
Qed.

Lemma scanBatch_Throw keys (batch : list Customer) e :
  scanBatch keys batch = Throw e →
  e = pushError ∧
  ∃ obj k, obj ∈ batch ∧ is_Some (obj !! k) ∧ k ∈ objectPrototypeKeys.
Proof.
  unfold scanBatch. revert keys.
  induction batch as [|obj batch IH]; intros keys; simpl; [done|].
  destruct (scanCustomer keys obj) as [keys1|e1] eqn:Hone.
  - intros Hrest. destruct (IH _ Hrest) as (-> & obj' & k & Hin & Hk & Hproto).
    split; [done|]. exists obj', k. split; [by right|done].
  - intros [= <-]. apply scanCustomer_Throw in Hone as (-> & k & Hk & Hproto).
    split; [done|]. exists obj, k. split; [by left|done].
Qed.

Lemma scanBatch_prototype keys (batch : list Customer) obj k :
  prototypeFree keys → obj ∈ batch → is_Some (obj !! k) → k ∈ objectPrototypeKeys →
  scanBatch keys batch = Throw pushError.
Proof.
  intros Hfree Hin Hk Hproto.
  destruct (scanBatch keys batch) as [keys'|e] eqn:Hscan;
    [|by apply scanBatch_Throw in Hscan as [-> _]].
  exfalso.
  pose proof (scanBatch_Ok_lookup _ _ _ k Hscan) as Hlookup.
  rewrite bool_decide_eq_false_2 in Hlookup by (by apply prototype_keys_not_skipped).
  rewrite (scanBatch_prototypeFree _ _ _ Hscan Hfree k Hproto) in Hlookup.
  destruct Hk as [v Hk].
  assert (v ∈ omap (λ obj : Customer, obj !! k) batch) as Hv
    by (apply list_elem_of_omap; eauto).
  destruct (omap _ batch) as [|y values]; [by apply elem_of_nil in Hv|done].
Qed.

(** The loop: its outcome is that of one scan over a prefix of the
    documents, cut at a whole number of batches. *)
Lemma scanLoop_prefix fuel customers documentsCount current keys result :
  scanLoop fuel customers documentsCount current keys = Some result →
  ∃ batches,
    result = scanBatch keys (take (batches * BATCH_SIZE) (drop current customers)) ∧
    documentsCount ≤ current + batches * BATCH_SIZE ∧
    (batches = 0 ∨ current + batches * BATCH_SIZE < documentsCount + BATCH_SIZE).
Proof.
  revert current keys.
  induction fuel as [|fuel IH]; intros current keys; simpl.
  - case_bool_decide; [done|]. intros [= <-]. exists 0. simpl.
    split; [done|]. split; [lia|by left].
  - case_bool_decide as Hguard.
    2:{ intros [= <-]. exists 0. simpl. split; [done|]. split; [lia|by left]. }
    assert (∀ batches,
              take (S batches * BATCH_SIZE) (drop current customers)
              = findBatch customers current
                ++ take (batches * BATCH_SIZE) (drop (current + BATCH_SIZE) customers))
      as Hcut.
    { intros batches. unfold findBatch.
      replace (S batches * BATCH_SIZE) with (BATCH_SIZE + batches * BATCH_SIZE) by lia.
      by rewrite <- drop_drop, take_take_drop. }
    destruct (scanBatch keys (findBatch customers current)) as [keys1|e] eqn:Hbatch.
    + intros Hrun. apply IH in Hrun as (batches & -> & Hge & Hlt).
      exists (S batches). rewrite Hcut, scanBatch_app, Hbatch.
      split; [done|]. split; [lia|]. right. destruct Hlt as [->|Hlt]; lia.
    + intros [= <-].
      exists (S ((documentsCount - current - 1) / BATCH_SIZE)).
      rewrite Hcut, scanBatch_app, Hbatch. split; [done|].
      pose proof (Nat.div_mod_eq (documentsCount - current - 1) BATCH_SIZE) as Hdiv.
      pose proof (Nat.mod_upper_bound (documentsCount - current - 1) BATCH_SIZE) as Hmod.
      unfold BATCH_SIZE in *. split; [lia|right; lia].
Qed.

Lemma scanAll_prefix customers documentsCount :
  ∃ batches,
    scanAll customers documentsCount
    = Some (scanBatch ∅ (take (batches * BATCH_SIZE) customers)) ∧
    documentsCount ≤ batches * BATCH_SIZE < documentsCount + BATCH_SIZE.
Proof.
  destruct (scanAll_terminates customers documentsCount) as [result Hscan].
  destruct (scanLoop_prefix _ _ _ _ _ _ Hscan) as (batches & -> & Hge & Hlt).
  exists batches. rewrite Hscan. change (drop 0 customers) with customers.
  split; [done|]. split; [lia|]. unfold BATCH_SIZE in *. destruct Hlt as [->|Hlt]; lia.
Qed.

Lemma prototypeFree_empty : prototypeFree ∅.
Proof. intros k _. apply lookup_empty. Qed.

(** The job either scanned to the end and wrote the keys, or the scan threw
    and nothing was written. *)
Lemma handleCustomerKeysCron_cases customers documentsCount m :
  (∃ keys, scanAll customers documentsCount = Some (Ok keys) ∧
           handleCustomerKeysCron customers documentsCount m = Some (writeKeys keys m)) ∨
  (∃ e, scanAll customers documentsCount = Some (Throw e) ∧
        handleCustomerKeysCron customers documentsCount m = Some m).
Proof.
  unfold handleCustomerKeysCron.
  destruct (scanAll_terminates customers documentsCount) as [[keys|e] ->]; eauto.
Qed.

(** A completed scan holds no structural key. *)
Lemma scanAll_skipFree customers documentsCount keys k :
  scanAll customers documentsCount = Some (Ok keys) → k ∈ KEYS_TO_SKIP →
  keys !! k = None.
Proof.
  intros Hscan Hk.
  destruct (scanAll_prefix customers documentsCount) as (batches & Hprefix & _).
  rewrite Hscan in Hprefix. injection Hprefix as Hprefix. symmetry in Hprefix.
  rewrite (scanBatch_Ok_lookup _ _ _ k Hprefix).
  by rewrite bool_decide_eq_true_2.
Qed.

(** **** What one field's inference writes *)

Lemma validItemOf_usable samples :
  usable (validItemOf samples) = true ↔ Exists (λ v, usable v = true) samples.
Proof.
  unfold validItemOf. rewrite Exists_exists.
  destruct (List.find usable samples) as [x|] eqn:Hfind; simpl.
  - apply List.find_some in Hfind as [Hin Hx].
    split; [|done]. intros _. exists x. by rewrite list_elem_of_In.
  - split; [done|]. intros (x & Hin & Hx).
    apply list_elem_of_In in Hin.
    by rewrite (List.find_none _ _ Hfind x Hin) in Hx.
Qed.

Lemma inferKey_is_Some k samples :
  is_Some (inferKey k samples) ↔ Exists (λ v, usable v = true) samples.
Proof.
  rewrite <- validItemOf_usable. unfold inferKey.
  destruct (usable (validItemOf samples)); simpl.
  - split; eauto.
  - split; [by intros [? ?]|done].
Qed.

Lemma inferKey_key k samples ck : inferKey k samples = Some ck → key ck = k.
Proof.
  unfold inferKey. destruct (negb _); [done|]. by intros [= <-].
Qed.

Definition inferEntry (entry : string * list value) : option CustomerKeys :=
  inferKey entry.1 entry.2.

Lemma foldl_writeKey_upserts entries m :
  upserts (foldl writeKey m entries) = upserts m ++ omap inferEntry entries.
Proof.
  revert m. induction entries as [|e entries IH]; intros m; simpl.
  - by rewrite app_nil_r.
  - rewrite IH. unfold writeKey, inferEntry.
    destruct (inferKey e.1 e.2); simpl; [|done].
    by rewrite <- app_assoc.
Qed.

Lemma foldl_writeKey_documents entries m k :
  k ∉ entries.*1 →
  documents (foldl writeKey m entries) !! k = documents m !! k.
Proof.
  revert m. induction entries as [|e entries IH]; intros m Hk; simpl; [done|].
  simpl in Hk. apply not_elem_of_cons in Hk as [Hne Hk].
  rewrite IH by done. unfold writeKey.
  destruct (inferKey e.1 e.2) as [ck|] eqn:Hck; [|done].
  simpl. apply inferKey_key in Hck. rewrite lookup_insert_ne; congruence.
Qed.

Lemma upserts_of_absent_key entries k :
  k ∉ entries.*1 → filter (λ ck, key ck = k) (omap inferEntry entries) = [].
Proof.
  induction entries as [|e entries IH]; intros Hk; simpl; [done|].
  simpl in Hk. apply not_elem_of_cons in Hk as [Hne Hk].
  unfold inferEntry at 1.
  destruct (inferKey e.1 e.2) as [ck|] eqn:Hck; [|by apply IH].
  apply inferKey_key in Hck.
  rewrite filter_cons_False by congruence. by apply IH.
Qed.

Lemma upserts_of_present_key entries k samples :
  NoDup entries.*1 → (k, samples) ∈ entries →
  filter (λ ck, key ck = k) (omap inferEntry entries)
  = option_list (inferKey k samples).
Proof.
  induction entries as [|e entries IH]; intros Hnd Hin; [by apply elem_of_nil in Hin|].
  simpl in Hnd. apply NoDup_cons in Hnd as [Hfresh Hnd].
  apply elem_of_cons in Hin as [<-|Hin]; simpl; unfold inferEntry at 1; simpl.
  - destruct (inferKey k samples) as [ck|] eqn:Hck; simpl.
    + rewrite filter_cons_True by (by apply inferKey_key in Hck).
      by rewrite upserts_of_absent_key.
    + by apply upserts_of_absent_key.
  - assert (e.1 ≠ k) as Hne.
    { intros Heq. apply Hfresh. rewrite Heq.
      apply list_elem_of_fmap. by exists (k, samples). }
    destruct (inferKey e.1 e.2) as [ck|] eqn:Hck.
    + apply inferKey_key in Hck.
      rewrite filter_cons_False by congruence. by apply IH.
    + by apply IH.
Qed.

Lemma upsert_key_in_entries entries ck :
  ck ∈ omap inferEntry entries → key ck ∈ entries.*1.
Proof.
  rewrite list_elem_of_omap. intros (e & Hin & Hck).
  apply inferKey_key in Hck. rewrite Hck.
  apply list_elem_of_fmap. by exists e.
Qed.

Lemma writeKey_documents_other m e k :
  e.1 ≠ k → documents (writeKey m e) !! k = documents m !! k.
Proof.
  intros Hne. unfold writeKey.
  destruct (inferKey e.1 e.2) as [ck|] eqn:Hck; [|done].
  simpl. apply inferKey_key in Hck. rewrite lookup_insert_ne; congruence.
Qed.

Lemma foldl_writeKey_documents_present entries m k samples :
  NoDup entries.*1 → (k, samples) ∈ entries →
  documents (foldl writeKey m entries) !! k
  = match inferKey k samples with
    | Some ck => Some ck
    | None => documents m !! k
    end.
Proof.
  revert m.
  induction entries as [|e entries IH]; intros m Hnd Hin; [by apply elem_of_nil in Hin|].
  simpl in Hnd. apply NoDup_cons in Hnd as [Hfresh Hnd].
  apply elem_of_cons in Hin as [<-|Hin]; simpl.
  - rewrite foldl_writeKey_documents by done.
    unfold writeKey. simpl.
    destruct (inferKey k samples) as [ck|] eqn:Hck; [|done].
    simpl. apply inferKey_key in Hck. rewrite <- Hck at 1.
    apply lookup_insert_eq.
  - assert (e.1 ≠ k) as Hne.
    { intros Heq. apply Hfresh. rewrite Heq.
      apply list_elem_of_fmap. by exists (k, samples). }
    rewrite IH by done.
    destruct (inferKey k samples); [done|].
    by apply writeKey_documents_other.
Qed.

Lemma usable_false v :
  usable v = false ↔ v = VStr "" ∨ v = VUndefined ∨ v = VNull.
Proof.
  destruct v as [| | | |s| |]; simpl;
    try (split; [done | by intros [?|[?|?]]]);
    try (split; [eauto | done]).
  destruct (String.eqb_spec s ""); simpl.
  - subst. split; eauto.
  - split; [done|]. intros [?|[?|?]]; congruence.
Qed.

Lemma usable_true v :
  usable v = true ↔ v ≠ VStr "" ∧ v ≠ VUndefined ∧ v ≠ VNull.
Proof.
  destruct (usable v) eqn:Hv.
  - split; [intros _|done].
    assert (¬ (v = VStr "" ∨ v = VUndefined ∨ v = VNull)) as Hn.
    { rewrite <- usable_false. congruence. }
    tauto.
  - apply usable_false in Hv. split; [done|tauto].
Qed.

(** **** The properties of the discovery job *)



(** C7 (the code where it departs from the claim).  When one of the
    documents within the estimated count has a field named like a member of
    [Object.prototype], the scan throws on it, the job ends in its [catch],
    and no key is written at all: not for that field, and not for any other
    field, whatever its samples. *)
Theorem prototype_named_field_aborts_discovery customers documentsCount m obj k :
  obj ∈ take documentsCount customers →
  is_Some (obj !! k) →
  k ∈ objectPrototypeKeys →
  scanAll customers documentsCount = Some (Throw pushError) ∧
  handleCustomerKeysCron customers documentsCount m = Some m.
Proof.
  intros Hin Hk Hproto.
  destruct (scanAll_prefix customers documentsCount) as (batches & Hscan & Hge & _).
  assert (obj ∈ take (batches * BATCH_SIZE) customers) as Hin'.
  { apply elem_of_take in Hin as (i & Hi & Hlt).
    apply elem_of_take. exists i. split; [done|lia]. }
  rewrite (scanBatch_prototype ∅ _ obj k prototypeFree_empty Hin' Hk Hproto) in Hscan.
  split; [done|]. unfold handleCustomerKeysCron. by rewrite Hscan.
Qed.

(** X13.  When the scan completes, a field whose accumulated samples are
    all empty string, undefined or null gets no upsert in the run and its
    document is left as it was; a field with a usable sample gets exactly
    one upsert, under its own name. *)
Theorem field_upserted_iff_usable_sample customers documentsCount m keys k samples :
  scanAll customers documentsCount = Some (Ok keys) →
  keys !! k = Some samples →
  ∃ m' written,
    handleCustomerKeysCron customers documentsCount m = Some m' ∧
    upserts m' = upserts m ++ written ∧
    (Forall (λ v, v = VStr "" ∨ v = VUndefined ∨ v = VNull) samples →
       filter (λ ck, key ck = k) written = [] ∧
       documents m' !! k = documents m !! k) ∧
    (Exists (λ v, v ≠ VStr "" ∧ v ≠ VUndefined ∧ v ≠ VNull) samples →
       ∃ ck, filter (λ ck, key ck = k) written = [ck] ∧ key ck = k ∧
             documents m' !! k = Some ck).
Proof.
  intros Hscan Hk.
  exists (writeKeys keys m), (omap inferEntry (map_to_list keys)).
  assert (NoDup (map_to_list keys).*1) as Hnd by apply NoDup_fst_map_to_list.
  assert ((k, samples) ∈ map_to_list keys) as Hin by by apply elem_of_map_to_list.
  split; [unfold handleCustomerKeysCron; by rewrite Hscan|].
  split; [apply foldl_writeKey_upserts|].
  unfold writeKeys.
  rewrite (upserts_of_present_key _ _ _ Hnd Hin).
  rewrite (foldl_writeKey_documents_present _ _ _ _ Hnd Hin).
  split.
  - intros Hblank.
    destruct (inferKey k samples) as [ck|] eqn:Hck; [|done].
    assert (Exists (λ v, usable v = true) samples) as Hex
      by (apply (inferKey_is_Some k); eauto).
    apply Exists_exists in Hex as (v & Hv & Husable).
    rewrite Forall_forall in Hblank.
    specialize (Hblank v Hv). apply usable_false in Hblank. congruence.
  - intros Hex.
    assert (is_Some (inferKey k samples)) as [ck Hck].
    { apply (inferKey_is_Some k). eapply Exists_impl; [exact Hex|].
      intros v Hv. by apply usable_true. }
    rewrite Hck. exists ck. simpl. repeat split. by apply inferKey_key in Hck.
Qed.

(** C8.  Whatever the customer records hold, a run issues no upsert for a
    key of [KEYS_TO_SKIP] and leaves that key's document untouched. *)
Theorem structural_keys_never_written customers documentsCount m k :
  k ∈ KEYS_TO_SKIP →
  ∃ m' written,
    handleCustomerKeysCron customers documentsCount m = Some m' ∧
    upserts m' = upserts m ++ written ∧
    (∀ ck, ck ∈ written → key ck ≠ k) ∧
    documents m' !! k = documents m !! k.
Proof.
  intros Hk.
  destruct (handleCustomerKeysCron_cases customers documentsCount m)
    as [(keys & Hscan & ->)|(e & _ & ->)].
  - assert (k ∉ (map_to_list keys).*1) as Habsent.
    { intros Hin. apply list_elem_of_fmap in Hin as ([k' samples] & -> & Hin).
      apply elem_of_map_to_list in Hin.
      pose proof (scanAll_skipFree _ _ _ _ Hscan Hk) as Hnone.
      simpl in Hnone. congruence. }
    exists (writeKeys keys m), (omap inferEntry (map_to_list keys)).
    split; [done|]. split; [apply foldl_writeKey_upserts|].
    split; [|by apply foldl_writeKey_documents].
    intros ck Hck Heq. apply upsert_key_in_entries in Hck. by rewrite Heq in Hck.
  - exists m, []. rewrite app_nil_r. repeat split.
    intros ck Hck. by apply elem_of_nil in Hck.
Qed.

End CustomerKeysCron.

(** Where the two validators did overlap, the code as written would type the
    string Date: the hypothesis of C4 cannot be dropped. *)
Lemma overlapping_validators_would_give_Date :
  ∃ isEmailString isDateStringString : string → bool,
    isEmailString "a@x.com" = true ∧
    isDateStringString "a@x.com" = true ∧
    type <$> inferKey isEmailString isDateStringString "contact" [VStr "a@x.com"; VNull]
    = Some "Date".
Proof.
  exists (λ _, true), (λ _, true). by repeat split.
Qed.


Definition sampleCustomers : list Customer :=
  [ {[ "_id" := VStr "64f0"; "email" := VStr "a@x.com"; "note" := VStr "" ]};
    {[ "_id" := VStr "64f1"; "email" := VNull; "note" := VNull ]} ].

Definition noKeys : KeysModel := {| documents := ∅; upserts := [] |}.

(** A collection in which one customer has an attribute called [toString]. *)
Definition customersWithToString : list Customer :=
  [ {[ "_id" := VStr "64f0"; "name" := VStr "Ann" ]};
    {[ "_id" := VStr "64f1"; "name" := VStr "Bob"; "toString" := VStr "x" ]} ].

Lemma prototype_named_field_aborts_discovery_witness :
  ({[ "_id" := VStr "64f1"; "name" := VStr "Bob"; "toString" := VStr "x" ]} : Customer)
    ∈ take 2 customersWithToString ∧
  scanAll customersWithToString 2 = Some (Throw pushError) ∧
  handleCustomerKeysCron (λ _, false) (λ _, false) customersWithToString 2 noKeys
  = Some noKeys.
Proof.
  assert (({[ "_id" := VStr "64f1"; "name" := VStr "Bob"; "toString" := VStr "x" ]}
             : Customer) ∈ take 2 customersWithToString) as Hin.
  { simpl. apply elem_of_cons. right. apply elem_of_cons. by left. }
  split; [exact Hin|].
  apply (prototype_named_field_aborts_discovery (λ _, false) (λ _, false)
           customersWithToString 2 noKeys _ "toString" Hin).
  - by exists (VStr "x").
  - unfold objectPrototypeKeys. do 8 (apply elem_of_cons; right).
    apply elem_of_cons. by left.
Defined.

Lemma field_upserted_iff_usable_sample_witness :
  (∃ m' written,
     handleCustomerKeysCron (λ _, false) (λ _, false) sampleCustomers 2 noKeys = Some m' ∧
     upserts m' = written ∧
     filter (λ ck, key ck = "note") written = [] ∧
     documents m' !! "note" = None) ∧
  (∃ m' written ck,
     handleCustomerKeysCron (λ _, false) (λ _, false) sampleCustomers 2 noKeys = Some m' ∧
     upserts m' = written ∧
     filter (λ ck, key ck = "email") written = [ck] ∧
     documents m' !! "email" = Some ck).
Proof.
  assert (scanAll sampleCustomers 2
          = Some (Ok {[ "email" := [VStr "a@x.com"; VNull]; "note" := [VStr ""; VNull] ]}))
    as Hscan by (vm_compute; reflexivity).
  split.
  - destruct (field_upserted_iff_usable_sample (λ _, false) (λ _, false) sampleCustomers 2
                noKeys _ "note" [VStr ""; VNull] Hscan)
      as (m' & written & Hrun & Hupserts & Hblank & _); [vm_compute; reflexivity|].
    assert (Forall (λ v, v = VStr "" ∨ v = VUndefined ∨ v = VNull) [VStr ""; VNull])
      as Hall by (repeat constructor; eauto).
    destruct (Hblank Hall) as [Hnone Hdoc].
    exists m', written. split; [exact Hrun|]. split; [exact Hupserts|].
    split; [exact Hnone|exact Hdoc].
  - destruct (field_upserted_iff_usable_sample (λ _, false) (λ _, false) sampleCustomers 2
                noKeys _ "email" [VStr "a@x.com"; VNull] Hscan)
      as (m' & written & Hrun & Hupserts & _ & Husable); [vm_compute; reflexivity|].
    assert (Exists (λ v, v ≠ VStr "" ∧ v ≠ VUndefined ∧ v ≠ VNull)
                   [VStr "a@x.com"; VNull])
      as Hsome by (apply Exists_cons_hd; repeat split; discriminate).
    destruct (Husable Hsome) as (ck & Hone & _ & Hdoc).
    exists m', written, ck. split; [exact Hrun|]. split; [exact Hupserts|].
    split; [exact Hone|exact Hdoc].
Defined.

Lemma structural_keys_never_written_witness :
  ∃ m' written,
    handleCustomerKeysCron (λ _, false) (λ _, false) sampleCustomers 2 noKeys = Some m' ∧
    upserts m' = upserts noKeys ++ written ∧
    (∀ ck, ck ∈ written → key ck ≠ "_id") ∧
    documents m' !! "_id" = documents noKeys !! "_id".
Proof.
  apply (structural_keys_never_written (λ _, false) (λ _, false) sampleCustomers 2 noKeys "_id").
  unfold KEYS_TO_SKIP. apply elem_of_cons. right. apply elem_of_cons. by left.
Defined.

(* --------------------------------------------------------------------- *)
(** *** Further properties of handleCustomerKeysCron *)
(* --------------------------------------------------------------------- *)

Section DiscoveryProperties.

Variable isEmailString : string -> bool.
Variable isDateStringString : string -> bool.

(** **** Which documents the scan reads *)

(** X1.  The outcome of the scan is that of sampling, in order, the first
    [batches * BATCH_SIZE] documents, for the least number of whole batches
    that reaches the estimated count, a throw ending it.  With an estimate at
    least the real count that is every document; documents beyond the covered
    prefix are never sampled. *)
Theorem scan_covers_prefix (customers : list Customer) documentsCount :
  ∃ batches,
    scanAll customers documentsCount
    = Some (scanBatch ∅ (take (batches * BATCH_SIZE) customers)) ∧
    documentsCount ≤ batches * BATCH_SIZE < documentsCount + BATCH_SIZE ∧
    (length customers ≤ documentsCount →
       scanAll customers documentsCount = Some (scanBatch ∅ customers)).
Proof.
  destruct (scanAll_prefix customers documentsCount) as (batches & Hscan & Hbounds).
  exists batches. split; [done|]. split; [done|].
  intros Hlen. rewrite Hscan, take_ge; [done|lia].
Qed.

(** **** What the scan accumulates *)

(** X2.  Scanning a batch throws exactly when one of its documents has a
    field named like a member of [Object.prototype].  Otherwise the samples
    of a field are that field's values in the documents, in document order: a
    document without the field contributes nothing, a field no document has
    is not a key at all, and a key of [KEYS_TO_SKIP] never is. *)
Theorem samples_are_field_values (batch : list Customer) :
  match scanBatch ∅ batch with
  | Ok keys =>
      (∀ obj k, obj ∈ batch → is_Some (obj !! k) → k ∉ objectPrototypeKeys) ∧
      ∀ k, keys !! k
           = if bool_decide (k ∈ KEYS_TO_SKIP) then None
             else match omap (λ obj : Customer, obj !! k) batch with
                  | [] => None
                  | values => Some values
                  end
  | Throw e =>
      e = pushError ∧
      ∃ obj k, obj ∈ batch ∧ is_Some (obj !! k) ∧ k ∈ objectPrototypeKeys
  end.
Proof.
  destruct (scanBatch ∅ batch) as [keys|e] eqn:Hscan.
  - split.
    + intros obj k Hin Hk Hproto.
      by rewrite (scanBatch_prototype ∅ batch obj k prototypeFree_empty Hin Hk Hproto)
        in Hscan.
    + intros k. rewrite (scanBatch_Ok_lookup _ _ _ k Hscan), lookup_empty.
      case_bool_decide; [done|]. by destruct (omap _ batch).
  - by apply scanBatch_Throw in Hscan.
Qed.

(** **** Running the job again *)

Lemma writeKeys_documents keys m k :
  documents (writeKeys isEmailString isDateStringString keys m) !! k
  = match keys !! k ≫= inferKey isEmailString isDateStringString k with
    | Some ck => Some ck
    | None => documents m !! k
    end.
Proof.
  unfold writeKeys. destruct (keys !! k) as [samples|] eqn:Hk; simpl.
  - apply foldl_writeKey_documents_present; [apply NoDup_fst_map_to_list|].
    by apply elem_of_map_to_list.
  - apply foldl_writeKey_documents.
    intros Hin. apply list_elem_of_fmap in Hin as ([k' samples] & -> & Hin).
    apply elem_of_map_to_list in Hin. simpl in Hk. congruence.
Qed.

(** X3.  A second run over the same customers issues the same upserts as
    the first and leaves the collection of keys exactly as the first run
    left it. *)
Theorem discovery_rerun_changes_nothing (customers : list Customer) documentsCount m :
  ∃ m1 m2 written,
    handleCustomerKeysCron isEmailString isDateStringString customers documentsCount m
    = Some m1 ∧
    handleCustomerKeysCron isEmailString isDateStringString customers documentsCount m1
    = Some m2 ∧
    upserts m1 = upserts m ++ written ∧
    upserts m2 = upserts m1 ++ written ∧
    documents m2 = documents m1.
Proof.
  destruct (handleCustomerKeysCron_cases isEmailString isDateStringString
              customers documentsCount m) as [(keys & Hscan & Hrun)|(e & Hscan & Hrun)].
  - exists (writeKeys isEmailString isDateStringString keys m),
           (writeKeys isEmailString isDateStringString keys
              (writeKeys isEmailString isDateStringString keys m)),
           (omap (inferEntry isEmailString isDateStringString) (map_to_list keys)).
    split; [done|]. split; [unfold handleCustomerKeysCron; by rewrite Hscan|].
    split; [apply foldl_writeKey_upserts|]. split; [apply foldl_writeKey_upserts|].
    apply map_eq. intros k. rewrite (writeKeys_documents keys (writeKeys _ _ keys m)).
    rewrite writeKeys_documents. by destruct (keys !! k ≫= _).
  - exists m, m, []. rewrite app_nil_r. by repeat split.
Qed.

(** **** Which sample decides *)

Lemma validItemOf_skips_blanks blanks v rest :
  Forall (λ item, usable item = false) blanks → usable v = true →
  validItemOf (blanks ++ v :: rest) = v.
Proof.
  intros Hblanks Hv. unfold validItemOf.
  induction Hblanks as [|b blanks Hb _ IH]; simpl.
  - by rewrite Hv.
  - by rewrite Hb.
Qed.

(** X4.  The type of a field is decided by its first sample that is not
    the empty string, undefined or null: the blank samples before it and
    every sample after it are ignored. *)
Theorem first_usable_sample_decides k blanks v rest :
  Forall (λ item, usable item = false) blanks →
  usable v = true →
  inferKey isEmailString isDateStringString k (blanks ++ v :: rest)
  = inferKey isEmailString isDateStringString k [v].
Proof.
  intros Hblanks Hv. unfold inferKey.
  rewrite (validItemOf_skips_blanks blanks v rest Hblanks Hv).
  pose proof (validItemOf_skips_blanks [] v [] (Forall_nil_2 _) Hv) as Hone.
  change ([] ++ [v]) with [v] in Hone. by rewrite Hone.
Qed.

End DiscoveryProperties.

Lemma first_usable_sample_decides_witness :
  Forall (λ item, usable item = false) [VNull; VStr ""] ∧
  usable (VNum (Fin 30)) = true ∧
  inferKey (λ _, false) (λ _, false) "age" ([VNull; VStr ""] ++ VNum (Fin 30) :: [VStr "25"])
  = Some {| key := "age"; type := "Number"; isArray := false |}.
Proof.
  assert (Forall (λ item, usable item = false) [VNull; VStr ""]) as Hblanks
    by (repeat constructor).
  split; [exact Hblanks|]. split; [reflexivity|].
  rewrite (first_usable_sample_decides (λ _, false) (λ _, false) "age"
             [VNull; VStr ""] (VNum (Fin 30)) [VStr "25"] Hblanks eq_refl).
  reflexivity.
Defined.

(* --------------------------------------------------------------------- *)
(** *** handleClickHouseCron *)
(* --------------------------------------------------------------------- *)

Inductive EventProvider := mailgun | sendgrid.

(** interface ClickHouseMessage *)
Record ClickHouseMessage := {
  audienceId : value;
  customerId : value;
  messageId : string;
  event : string;
  eventProvider : EventProvider;
  createdAt : string
}.

(** What the Mailgun client hands back from [events.get]. *)
Module Mailgun.

Record Item := {
  timestamp : number;              (* seconds *)
  user_variables_audienceId : value;
  user_variables_customerId : value;
  event : string;
  message_headers_message_id : string
}.

Record Events := { items : list Item; pages_next_number : string }.

Record Query := { begin : string; ascending : string; page : option string }.

End Mailgun.

Record Account := { mailgunAPIKey : string; sendingDomain : string }.

(** [new Date('2000-10-10')]: a date-only ISO string denotes midnight UTC,
    11240 days after the epoch. *)
Definition epochFloor : number := Fin 971136000000.

(** The time value of a Date held in a variable. *)
Definition getTime (d : value) : number :=
  match d with VDate t => t | _ => NaN end.

Section ClickHouseCron.

(** [Date.parse] on the sink's own timestamp format, [new Date(t).toUTCString()]
    as a function of the number [t], and [new Date().getTimezoneOffset()]
    (minutes) belong to the runtime. *)
Variable parseDate : string -> number.
Variable toUTCString : number -> string.
Variable timezoneOffset : Z.

(** **** The watermark *)

(** [data?.[0]?.['max(createdAt)']] on the decoded response, [data] being
    absent or a list of rows. *)
Definition dateInDB (data : option (list (gmap string string))) : option string :=
  rows ← data; row ← rows !! 0; row !! "max(createdAt)".

(** [new Date(new Date(dateInDB).getTime() - new Date().getTimezoneOffset() * 60 * 1000)
     || new Date('2000-10-10')] *)
Definition lastEventFetch (data : option (list (gmap string string))) : value :=
  or_else
    (VDate (timeClip
              (num_sub (Date_of parseDate (dateInDB data))
                       (num_mul (num_mul (Fin timezoneOffset) (Fin 60)) (Fin 1000)))))
    (VDate epochFloor).

(** **** Pulling one account's events *)

(** The Mailgun service as the client sees it: a state and the answer to
    [mg.events.get(domain, query)] for an account's client. *)
Variable MG : Type.
Variable events_get : MG → Account → Mailgun.Query → Outcome Mailgun.Events * MG.

(** The body of [for (const item of events.items)]. *)
Definition pushItem (batchToSave : list ClickHouseMessage) (item : Mailgun.Item)
  : list ClickHouseMessage :=
  if negb (truthy (Mailgun.user_variables_audienceId item))
     || negb (truthy (Mailgun.user_variables_customerId item))
  then batchToSave
  else batchToSave ++
       [ {| audienceId := Mailgun.user_variables_audienceId item;
            customerId := Mailgun.user_variables_customerId item;
            event := Mailgun.event item;
            eventProvider := mailgun;
            messageId := Mailgun.message_headers_message_id item;
            createdAt := toUTCString (num_mul (Mailgun.timestamp item) (Fin 1000)) |} ].

(** [events.items[events.items.length - 1]?.timestamp * 1000]: on an empty
    page the optional access yields [undefined], whose product is NaN. *)
Definition lastTimestampOf (events : Mailgun.Events) : number :=
  num_mul (default NaN (Mailgun.timestamp <$> last (Mailgun.items events))) (Fin 1000).

(** [lastEventTimestamp && new Date(lastEventTimestamp) > lastEventFetch] *)
Definition continues (lastEventTimestamp : number) (lastEventFetch : value) : bool :=
  truthy (VNum lastEventTimestamp)
  && num_gt (timeClip lastEventTimestamp) (getTime lastEventFetch).

Definition queryFor (lastEventFetch : value) (page : option string) : Mailgun.Query :=
  {| Mailgun.begin := toUTCString (num_add (getTime lastEventFetch) (Fin 1000));
     Mailgun.ascending := "yes";
     Mailgun.page := page |}.

(** The client together with the pages it has served so far. *)
Record Pull := { service : MG; fetched : list Mailgun.Events }.

(** The [while] loop over the following pages.  A throw leaves the loop
    (and the account's [try] block) at once. *)
Fixpoint nextPages (fuel : nat) (account : Account) (lastEventFetch : value)
  (batchToSave : list ClickHouseMessage) (page : string) (lastEventTimestamp : number)
  (p : Pull) : option (Outcome (list ClickHouseMessage) * Pull) :=
  if continues lastEventTimestamp lastEventFetch then
    match fuel with
    | O => None
    | S fuel' =>
        match events_get (service p) account (queryFor lastEventFetch (Some page)) with
        | (Throw e, mg) => Some (Throw e, {| service := mg; fetched := fetched p |})
        | (Ok events, mg) =>
            nextPages fuel' account lastEventFetch
              (foldl pushItem batchToSave (Mailgun.items events))
              (Mailgun.pages_next_number events)
              (lastTimestampOf events)
              {| service := mg; fetched := fetched p ++ [events] |}
        end
    end
  else Some (Ok batchToSave, p).

(** The body of the account's [try] block up to [insertMessages]: the batch
    to save, or the error the [catch] logs. *)
Definition pullAccount (fuel : nat) (account : Account) (lastEventFetch : value) (p : Pull)
  : option (Outcome (list ClickHouseMessage) * Pull) :=
  match events_get (service p) account (queryFor lastEventFetch None) with
  | (Throw e, mg) => Some (Throw e, {| service := mg; fetched := fetched p |})
  | (Ok events, mg) =>
      nextPages fuel account lastEventFetch
        (foldl pushItem [] (Mailgun.items events))
        (Mailgun.pages_next_number events)
        (lastTimestampOf events)
        {| service := mg; fetched := fetched p ++ [events] |}
  end.

(** C1 (the code at the inputs the claim speaks of).  The watermark is always
    the first operand of [||]: a Date object is truthy even when invalid.  On
    a response without rows it is the invalid Date, not the epoch floor; on a
    response whose first row carries [max(createdAt)] it is the Date of that
    timestamp shifted by the timezone offset. *)
Theorem watermark_never_falls_back data s :
  lastEventFetch data
  = VDate (timeClip (num_sub (Date_of parseDate (dateInDB data))
                             (Fin (timezoneOffset * 60 * 1000)))) ∧
  lastEventFetch None = VDate NaN ∧
  lastEventFetch (Some []) = VDate NaN ∧
  lastEventFetch (Some []) ≠ VDate epochFloor ∧
  lastEventFetch (Some [ {[ "max(createdAt)" := s ]} ])
  = VDate (timeClip (num_sub (timeClip (parseDate s))
                             (Fin (timezoneOffset * 60 * 1000)))).
Proof.
  repeat split; try done.
Qed.

(** With the invalid watermark the guard of the pagination loop is false
    whatever the first page held: one request per account. *)
Lemma invalid_watermark_blocks_pagination lastEventTimestamp :
  continues lastEventTimestamp (lastEventFetch None) = false.
Proof.
  unfold continues. destruct (truthy _); [|done]. by destruct lastEventTimestamp.
Qed.

(** **** The pagination loop and empty pages *)

(** The source, asked for [page] and then for each page it names next,
    serves an empty page after at most [n] further requests. *)
Inductive EndsWithin (account : Account) (lastEventFetch : value)
  : nat → MG → option string → Prop :=
| ends_now n mg page events mg' :
    events_get mg account (queryFor lastEventFetch page) = (Ok events, mg') →
    Mailgun.items events = [] →
    EndsWithin account lastEventFetch n mg page
| ends_later n mg page events mg' :
    events_get mg account (queryFor lastEventFetch page) = (Ok events, mg') →
    EndsWithin account lastEventFetch n mg' (Some (Mailgun.pages_next_number events)) →
    EndsWithin account lastEventFetch (S n) mg page.

Lemma lastTimestampOf_empty events :
  Mailgun.items events = [] → lastTimestampOf events = NaN.
Proof. unfold lastTimestampOf. by intros ->. Qed.

Lemma continues_NaN lastEventFetch : continues NaN lastEventFetch = false.
Proof. done. Qed.

Lemma nextPages_stops fuel account lastEventFetch batchToSave page ts p :
  continues ts lastEventFetch = false →
  nextPages fuel account lastEventFetch batchToSave page ts p = Some (Ok batchToSave, p).
Proof. intros Hstop. destruct fuel; simpl; by rewrite Hstop. Qed.

(** In a run of the loop that returns, no page but the last one served is
    empty. *)
Definition emptyOnlyLast (pages : list Mailgun.Events) : Prop :=
  ∀ i events, pages !! i = Some events → Mailgun.items events = [] → S i = length pages.

Lemma nextPages_empty_only_last fuel account lastEventFetch batchToSave page ts p out p' :
  nextPages fuel account lastEventFetch batchToSave page ts p = Some (out, p') →
  ∃ pages, fetched p' = fetched p ++ pages ∧ emptyOnlyLast pages.
Proof.
  revert batchToSave page ts p.
  induction fuel as [|fuel IH]; intros batchToSave page ts p; simpl.
  - destruct (continues ts lastEventFetch); [done|].
    intros [= <- <-]. exists []. split; [by rewrite app_nil_r|]. by intros i ev.
  - destruct (continues ts lastEventFetch).
    2:{ intros [= <- <-]. exists []. split; [by rewrite app_nil_r|]. by intros i ev. }
    destruct (events_get _ _ _) as [[events|e] mg].
    2:{ intros [= <- <-]. exists []. split; [by rewrite app_nil_r|]. by intros i ev. }
    destruct (Mailgun.items events) as [|item rest] eqn:Hitems.
    + rewrite nextPages_stops
        by (rewrite lastTimestampOf_empty by done; apply continues_NaN).
      intros [= <- <-]. exists [events]. split; [done|].
      intros [|i] ev Hev _; [done|]. by destruct i.
    + intros Hrun. apply IH in Hrun as (pages & Hfetched & Hlast).
      exists (events :: pages). simpl in Hfetched.
      split; [by rewrite Hfetched, <- app_assoc|].
      intros [|i] ev Hev Hempty; simpl in *.
      * injection Hev as <-. congruence.
      * f_equal. by eapply Hlast.
Qed.

Lemma nextPages_terminates account lastEventFetch n mg page :
  EndsWithin account lastEventFetch n mg (Some page) →
  ∀ fuel batchToSave ts p,
    service p = mg → n < fuel →
    is_Some (nextPages fuel account lastEventFetch batchToSave page ts p).
Proof.
  intros Hends. remember (Some page) as opage eqn:Hpage. revert page Hpage.
  induction Hends as [n mg opage events mg' Hget Hempty
                     |n mg opage events mg' Hget Hends IH];
    intros page -> fuel batchToSave ts p Hp Hfuel;
    (destruct fuel as [|fuel]; [lia|]); simpl;
    (destruct (continues ts lastEventFetch); [|eauto]);
    rewrite Hp, Hget.
  - rewrite nextPages_stops
      by (rewrite lastTimestampOf_empty by done; apply continues_NaN).
    eauto.
  - apply (IH _ eq_refl); [done|lia].
Qed.

(** C9.  An empty page makes the guard of the pagination loop false: its
    last-item timestamp is NaN, which is falsy.  Hence a run that returns has
    fetched no page after an empty one, and on a source that serves an empty
    page within [n] further requests the run does return, given fuel for
    those [n] requests. *)
Theorem empty_page_ends_pagination account lastEventFetch p :
  (∀ next, continues
             (lastTimestampOf {| Mailgun.items := []; Mailgun.pages_next_number := next |})
             lastEventFetch = false) ∧
  (∀ fuel out p',
     pullAccount fuel account lastEventFetch p = Some (out, p') →
     ∃ pages, fetched p' = fetched p ++ pages ∧ emptyOnlyLast pages) ∧
  (∀ n fuel,
     EndsWithin account lastEventFetch n (service p) None → n ≤ fuel →
     is_Some (pullAccount fuel account lastEventFetch p)).
Proof.
  split; [done|]. split.
  - intros fuel out p'. unfold pullAccount.
    destruct (events_get _ _ _) as [[events|e] mg].
    2:{ intros [= <- <-]. exists []. split; [by rewrite app_nil_r|]. by intros i ev. }
    destruct (Mailgun.items events) as [|item rest] eqn:Hitems.
    + rewrite nextPages_stops
        by (rewrite lastTimestampOf_empty by done; apply continues_NaN).
      intros [= <- <-]. exists [events]. split; [done|].
      intros [|i] ev Hev _; [done|]. by destruct i.
    + intros Hrun. apply nextPages_empty_only_last in Hrun as (pages & Hfetched & Hlast).
      exists (events :: pages). simpl in Hfetched.
      split; [by rewrite Hfetched, <- app_assoc|].
      intros [|i] ev Hev Hempty; simpl in *.
      * injection Hev as <-. congruence.
      * f_equal. by eapply Hlast.
  - intros n fuel Hends Hfuel. unfold pullAccount.
    inversion Hends as [n0 mg opage events mg' Hget Hempty
                       |n0 mg opage events mg' Hget Hlater]; subst; rewrite Hget.
    + rewrite nextPages_stops
        by (rewrite lastTimestampOf_empty by done; apply continues_NaN).
      eauto.
    + eapply nextPages_terminates; [exact Hlater|done|lia].
Qed.

(** **** Further properties of the Mailgun flow *)

(** X5.  While the sink gives no [max(createdAt)], every account gets one
    request only, whose [begin] is the rendering of the invalid date; what is
    saved for the account is the accepted events of that first page, whatever
    the page says about following pages. *)
Theorem empty_sink_single_request fuel account p data :
  dateInDB data = None →
  pullAccount fuel account (lastEventFetch data) p
  = match events_get (service p) account
            {| Mailgun.begin := toUTCString NaN;
               Mailgun.ascending := "yes";
               Mailgun.page := None |} with
    | (Throw e, mg) => Some (Throw e, {| service := mg; fetched := fetched p |})
    | (Ok events, mg) =>
        Some (Ok (foldl pushItem [] (Mailgun.items events)),
              {| service := mg; fetched := fetched p ++ [events] |})
    end.
Proof.
  intros Hnone.
  assert (lastEventFetch data = VDate NaN) as ->
    by (unfold lastEventFetch; by rewrite Hnone).
  unfold pullAccount.
  change (queryFor (VDate NaN) None)
    with {| Mailgun.begin := toUTCString NaN; Mailgun.ascending := "yes";
            Mailgun.page := None |}.
  destruct (events_get _ _ _) as [[events|e] mg]; [|done].
  apply nextPages_stops. unfold continues.
  destruct (truthy _); [|done]. by destruct (lastTimestampOf events).
Qed.

(** An event is kept when both its user variables are truthy. *)
Definition accepted (item : Mailgun.Item) : bool :=
  truthy (Mailgun.user_variables_audienceId item)
  && truthy (Mailgun.user_variables_customerId item).

(** The message pushed for a kept event. *)
Definition toMessage (item : Mailgun.Item) : ClickHouseMessage :=
  {| audienceId := Mailgun.user_variables_audienceId item;
     customerId := Mailgun.user_variables_customerId item;
     event := Mailgun.event item;
     eventProvider := mailgun;
     messageId := Mailgun.message_headers_message_id item;
     createdAt := toUTCString (num_mul (Mailgun.timestamp item) (Fin 1000)) |}.

Definition wellTagged (m : ClickHouseMessage) : Prop :=
  truthy (audienceId m) = true ∧ truthy (customerId m) = true ∧ eventProvider m = mailgun.

Lemma pushItem_accepted batchToSave item :
  pushItem batchToSave item
  = if accepted item then batchToSave ++ [toMessage item] else batchToSave.
Proof.
  unfold pushItem, accepted.
  by destruct (truthy (Mailgun.user_variables_audienceId item)),
              (truthy (Mailgun.user_variables_customerId item)).
Qed.

Lemma foldl_pushItem batchToSave items :
  foldl pushItem batchToSave items
  = batchToSave ++ (toMessage <$> filter (λ item, accepted item = true) items).
Proof.
  revert batchToSave. induction items as [|item items IH]; intros batchToSave; simpl.
  - by rewrite app_nil_r.
  - rewrite IH, pushItem_accepted. destruct (accepted item) eqn:Hacc.
    + rewrite filter_cons_True by done. simpl. by rewrite <- app_assoc.
    + by rewrite filter_cons_False by congruence.
Qed.

Lemma wellTagged_accepted items :
  Forall wellTagged (toMessage <$> filter (λ item, accepted item = true) items).
Proof.
  apply Forall_fmap, Forall_forall. intros item Hin.
  apply list_elem_of_filter in Hin as [Hacc _].
  unfold accepted in Hacc. apply andb_true_iff in Hacc as [? ?]. by repeat split.
Qed.

Lemma nextPages_batch fuel account lastEventFetch batchToSave page ts p batch p' :
  nextPages fuel account lastEventFetch batchToSave page ts p = Some (Ok batch, p') →
  ∃ pages,
    fetched p' = fetched p ++ pages ∧
    batch = batchToSave
            ++ (toMessage <$> filter (λ item, accepted item = true)
                                     (pages ≫= Mailgun.items)).
Proof.
  revert batchToSave page ts p.
  induction fuel as [|fuel IH]; intros batchToSave page ts p; simpl.
  - destruct (continues ts lastEventFetch); [done|].
    intros [= <- <-]. exists []. by rewrite !app_nil_r.
  - destruct (continues ts lastEventFetch).
    2:{ intros [= <- <-]. exists []. by rewrite !app_nil_r. }
    destruct (events_get _ _ _) as [[events|e] mg]; [|done].
    intros Hrun. apply IH in Hrun as (pages & Hfetched & ->).
    exists (events :: pages). simpl in *.
    split; [by rewrite Hfetched, <- app_assoc|].
    by rewrite foldl_pushItem, filter_app, fmap_app, app_assoc.
Qed.

(** X6.  What is saved for an account is exactly the kept events of the
    pages fetched for it, page after page and in page order, each turned into
    a message tagged [mailgun]; an event lacking one of its two user
    variables is in no batch. *)
Theorem saved_batch_is_accepted_events fuel account lastEventFetch p batch p' :
  pullAccount fuel account lastEventFetch p = Some (Ok batch, p') →
  ∃ pages,
    fetched p' = fetched p ++ pages ∧
    batch = toMessage <$> filter (λ item, accepted item = true) (pages ≫= Mailgun.items) ∧
    Forall wellTagged batch.
Proof.
  unfold pullAccount.
  destruct (events_get _ _ _) as [[events|e] mg]; [|done].
  intros Hrun. apply nextPages_batch in Hrun as (pages & Hfetched & ->).
  exists (events :: pages). simpl in *.
  split; [by rewrite Hfetched, <- app_assoc|].
  rewrite foldl_pushItem, filter_app, fmap_app. simpl.
  split; [done|]. apply Forall_app. split; apply wellTagged_accepted.
Qed.

(** **** The loop over the accounts *)

(** The Mailgun service, the rows of [message_status] and the errors the
    logger received. *)
Record Ingestion := {
  mailgunService : Pull;
  message_status : list ClickHouseMessage;
  errorLog : list string
}.

(** The [try { ... await insertMessages(batchToSave) } catch (e) {
    this.logger.error(e) }] of one account. *)
Definition processAccount (fuel : nat) (lastEventFetch : value) (st : Ingestion)
  (account : Account) : option Ingestion :=
  match pullAccount fuel account lastEventFetch (mailgunService st) with
  | None => None
  | Some (Ok batchToSave, p) =>
      Some {| mailgunService := p;
              message_status := message_status st ++ batchToSave;
              errorLog := errorLog st |}
  | Some (Throw e, p) =>
      Some {| mailgunService := p;
              message_status := message_status st;
              errorLog := errorLog st ++ [e] |}
  end.

(** [for (const account of accountsBatch)] *)
Fixpoint processBatch (fuel : nat) (lastEventFetch : value) (accountsBatch : list Account)
  (st : Ingestion) : option Ingestion :=
  match accountsBatch with
  | [] => Some st
  | account :: rest =>
      st' ← processAccount fuel lastEventFetch st account;
      processBatch fuel lastEventFetch rest st'
  end.

(** [while (offset < accountsNumber) { ...; offset += BATCH_SIZE }] over the
    accounts that hold a Mailgun key; [fuel] bounds the pagination of each
    account, [loopFuel] the batches. *)
Fixpoint accountsLoop (loopFuel fuel : nat) (lastEventFetch : value)
  (accounts : list Account) (accountsNumber offset : nat) (st : Ingestion)
  : option Ingestion :=
  if bool_decide (offset < accountsNumber) then
    match loopFuel with
    | O => None
    | S loopFuel' =>
        st' ← processBatch fuel lastEventFetch (take BATCH_SIZE (drop offset accounts)) st;
        accountsLoop loopFuel' fuel lastEventFetch accounts accountsNumber
          (offset + BATCH_SIZE) st'
    end
  else Some st.

(** The sink has only grown, by well-tagged messages. *)
Definition grownBy (st st' : Ingestion) : Prop :=
  ∃ added faults,
    message_status st' = message_status st ++ added ∧
    errorLog st' = errorLog st ++ faults ∧
    Forall wellTagged added.

Lemma grownBy_refl st : grownBy st st.
Proof. exists [], []. by rewrite !app_nil_r. Qed.

Lemma grownBy_trans st1 st2 st3 : grownBy st1 st2 → grownBy st2 st3 → grownBy st1 st3.
Proof.
  intros (a1 & f1 & Hm1 & He1 & Ht1) (a2 & f2 & Hm2 & He2 & Ht2).
  exists (a1 ++ a2), (f1 ++ f2).
  rewrite Hm2, Hm1, He2, He1, !app_assoc. repeat split. by apply Forall_app.
Qed.

Lemma processAccount_grownBy fuel lastEventFetch st account st' :
  processAccount fuel lastEventFetch st account = Some st' → grownBy st st'.
Proof.
  unfold processAccount.
  destruct (pullAccount _ _ _ _) as [[[batch|e] p]|] eqn:Hpull; [| |done].
  - intros [= <-]. apply saved_batch_is_accepted_events in Hpull as (_ & _ & _ & Htagged).
    exists batch, []. simpl. by rewrite app_nil_r.
  - intros [= <-]. exists [], [e]. simpl. by rewrite app_nil_r.
Qed.

Lemma processBatch_grownBy fuel lastEventFetch accountsBatch st st' :
  processBatch fuel lastEventFetch accountsBatch st = Some st' → grownBy st st'.
Proof.
  revert st. induction accountsBatch as [|account rest IH]; intros st; simpl.
  - intros [= <-]. apply grownBy_refl.
  - destruct (processAccount _ _ _ _) as [st1|] eqn:Hone; [|done]. simpl.
    intros Hrest. eapply grownBy_trans; [by eapply processAccount_grownBy|by apply IH].
Qed.

(** X7.  Whatever the Mailgun service answers, throws included, a run over
    the accounts that returns has only appended to [message_status] and to
    the error log, and every message it appended carries a truthy audience
    id, a truthy customer id and the provider [mailgun]. *)
Theorem mailgun_flow_appends_tagged loopFuel fuel lastEventFetch accounts
    accountsNumber offset st st' :
  accountsLoop loopFuel fuel lastEventFetch accounts accountsNumber offset st = Some st' →
  ∃ added faults,
    message_status st' = message_status st ++ added ∧
    errorLog st' = errorLog st ++ faults ∧
    Forall wellTagged added.
Proof.
  revert offset st.
  induction loopFuel as [|loopFuel IH]; intros offset st; simpl.
  - case_bool_decide; [done|]. intros [= <-]. apply grownBy_refl.
  - case_bool_decide; [|intros [= <-]; apply grownBy_refl].
    destruct (processBatch _ _ _ _) as [st1|] eqn:Hbatch; [|done]. simpl.
    intros Hrest. apply processBatch_grownBy in Hbatch. apply IH in Hrest.
    by eapply grownBy_trans.
Qed.

End ClickHouseCron.

(** **** Draining the Sendgrid staging table *)

Section SendgridDrain.

(** A row of the staging table.  The entity's declaration is outside the
    sources; rows are compared on all their columns. *)
Context {SendgridEvent : Type} `{!EqDecision SendgridEvent}.

(** [{ ...item, eventProvider }] *)
Record Tagged := { item : SendgridEvent; provider : EventProvider }.

Inductive RepositoryCall :=
| Find (returned : list SendgridEvent)
| InsertMessages (values : list Tagged)
| Delete (criteria : SendgridEvent).

(** The staging table, the rows inserted into [message_status], and the
    calls made on the two, in order. *)
Record Stores := {
  staging : list SendgridEvent;
  sink : list Tagged;
  calls : list RepositoryCall
}.

(** [sendgridEventRepository.find({ take: BATCH_SIZE })] *)
Definition find (st : Stores) : list SendgridEvent * Stores :=
  let batch := take BATCH_SIZE (staging st) in
  (batch, {| staging := staging st; sink := sink st; calls := calls st ++ [Find batch] |}).

Definition insertMessages (values : list Tagged) (st : Stores) : Stores :=
  {| staging := staging st;
     sink := sink st ++ values;
     calls := calls st ++ [InsertMessages values] |}.

(** [sendgridEventRepository.delete(item)]: every row matching the item on
    all columns goes. *)
Definition delete (st : Stores) (criteria : SendgridEvent) : Stores :=
  {| staging := filter (λ row, row ≠ criteria) (staging st);
     sink := sink st;
     calls := calls st ++ [Delete criteria] |}.

Definition tag (row : SendgridEvent) : Tagged := {| item := row; provider := sendgrid |}.

(** [while (batch.length > 0) { insert; delete each; batch = find }] *)
Fixpoint drainLoop (fuel : nat) (batch : list SendgridEvent) (st : Stores) : option Stores :=
  if bool_decide (0 < length batch) then
    match fuel with
    | O => None
    | S fuel' =>
        let st1 := insertMessages (tag <$> batch) st in
        let st2 := foldl delete st1 batch in
        let (batch', st3) := find st2 in
        drainLoop fuel' batch' st3
    end
  else Some st.

Definition drainSendgrid (fuel : nat) (st : Stores) : option Stores :=
  let (batch, st1) := find st in drainLoop fuel batch st1.

(** The calls of one iteration on [batch], the fetch included. *)
Definition iteration (batch : list SendgridEvent) : list RepositoryCall :=
  [Find batch; InsertMessages (tag <$> batch)] ++ (Delete <$> batch).

(** The batches a table is cut into: the first [BATCH_SIZE] rows, then the
    batches of the rest, until no row is left. *)
Inductive Batches : list SendgridEvent → list (list SendgridEvent) → Prop :=
| batches_nil : Batches [] []
| batches_cons rows batches :
    rows ≠ [] →
    Batches (drop BATCH_SIZE rows) batches →
    Batches rows (take BATCH_SIZE rows :: batches).

Lemma filter_ne_fresh (x : SendgridEvent) (rows : list SendgridEvent) :
  x ∉ rows → filter (λ row, row ≠ x) rows = rows.
Proof.
  induction rows as [|y rows IH]; intros Hx; [done|].
  apply not_elem_of_cons in Hx as [Hne Hx].
  rewrite filter_cons_True by congruence. by rewrite IH.
Qed.

Lemma foldl_delete_calls batch st :
  calls (foldl delete st batch) = calls st ++ (Delete <$> batch) ∧
  sink (foldl delete st batch) = sink st.
Proof.
  revert st. induction batch as [|x batch IH]; intros st; simpl.
  - by rewrite app_nil_r.
  - destruct (IH (delete st x)) as [-> ->]. simpl. by rewrite <- app_assoc.
Qed.

Lemma foldl_delete_staging n st :
  NoDup (staging st) →
  staging (foldl delete st (take n (staging st))) = drop n (staging st).
Proof.
  revert st. induction n as [|n IH]; intros st Hnd; [done|].
  destruct (staging st) as [|x rows] eqn:Hrows; [done|].
  apply NoDup_cons in Hnd as [Hfresh Hnd]. simpl.
  assert (staging (delete st x) = rows) as Hdel.
  { simpl. rewrite Hrows, filter_cons_False by (intros Hne; by apply Hne).
    by apply filter_ne_fresh. }
  rewrite <- Hdel at 1. rewrite IH; rewrite Hdel; done.
Qed.

Lemma NoDup_drop_rows n (rows : list SendgridEvent) : NoDup rows → NoDup (drop n rows).
Proof.
  intros Hnd. rewrite <- (take_drop n rows) in Hnd.
  by apply NoDup_app in Hnd as (_ & _ & ?).
Qed.

Lemma drainLoop_spec fuel st :
  NoDup (staging st) →
  length (staging st) ≤ fuel →
  ∃ st' batches,
    drainLoop fuel (find st).1 (find st).2 = Some st' ∧
    Batches (staging st) batches ∧
    calls st' = calls st ++ (batches ≫= iteration) ++ [Find []] ∧
    staging st' = [] ∧
    sink st' = sink st ++ (tag <$> staging st).
Proof.
  revert st. induction fuel as [|fuel IH]; intros st Hnd Hfuel.
  - destruct (staging st) as [|x rows] eqn:Hrows; [|simpl in Hfuel; lia].
    exists (find st).2, []. simpl. rewrite Hrows. simpl.
    repeat split; [constructor | by rewrite app_nil_r].
  - destruct (decide (staging st = [])) as [Hnil|Hne].
    { exists (find st).2, []. simpl. rewrite Hnil. simpl.
      repeat split; [constructor | by rewrite app_nil_r]. }
    assert (0 < length (staging st)) as Hpos
      by (destruct (staging st); [done|simpl; lia]).
    set (batch := take BATCH_SIZE (staging st)).
    set (st0 := {| staging := staging st; sink := sink st;
                   calls := calls st ++ [Find batch] |}).
    set (st1 := insertMessages (tag <$> batch) st0).
    set (st2 := foldl delete st1 batch).
    assert (staging st2 = drop BATCH_SIZE (staging st)) as Hst2
      by (apply (foldl_delete_staging BATCH_SIZE st1); exact Hnd).
    destruct (foldl_delete_calls batch st1) as [Hcalls2 Hsink2].
    fold st2 in Hcalls2, Hsink2.
    destruct (IH st2) as (st' & batches & Hrun & Hbatches & Hcalls & Hstaging & Hsink).
    { rewrite Hst2. by apply NoDup_drop_rows. }
    { rewrite Hst2, length_drop. unfold BATCH_SIZE. lia. }
    exists st', (batch :: batches).
    split.
    { change (find st).1 with batch. change (find st).2 with st0.
      cbn [drainLoop]. rewrite bool_decide_eq_true_2.
      2:{ unfold batch. rewrite length_take. unfold BATCH_SIZE. lia. }
      fold st1. fold st2. destruct (find st2) as [batch' st3] eqn:Hfind. exact Hrun. }
    split; [constructor; [done | by rewrite <- Hst2]|].
    split.
    { rewrite Hcalls, Hcalls2. simpl. unfold iteration.
      simpl. by rewrite <- !app_assoc. }
    split; [done|].
    rewrite Hsink, Hsink2, Hst2. simpl.
    rewrite <- app_assoc, <- fmap_app. unfold batch.
    by rewrite take_drop.
Qed.

Lemma Batches_1200 (rows : list SendgridEvent) batches :
  Batches rows batches → length rows = 1200 →
  length <$> batches = [500; 500; 200].
Proof.
  intros Hb Hlen.
  inversion Hb as [|? batches1 _ Hb1]; subst; [done|].
  inversion Hb1 as [Hnil|? batches2 _ Hb2]; subst.
  { apply (f_equal length) in Hnil. rewrite length_drop in Hnil.
    unfold BATCH_SIZE in *. simpl in Hnil. lia. }
  inversion Hb2 as [Hnil|? batches3 _ Hb3]; subst.
  { apply (f_equal length) in Hnil. rewrite !length_drop in Hnil.
    unfold BATCH_SIZE in *. simpl in Hnil. lia. }
  inversion Hb3 as [Hnil|? batches4 Hne _]; subst.
  - simpl. rewrite !length_take, !length_drop. unfold BATCH_SIZE. rewrite Hlen. done.
  - exfalso. apply Hne. apply length_zero_iff_nil.
    rewrite !length_drop. unfold BATCH_SIZE. lia.
Qed.

(** C6.  On a staging table of pairwise distinct rows the drain returns.
    Its calls are, batch after batch of at most [BATCH_SIZE] rows, the fetch,
    the insertion of the batch with every row tagged [sendgrid] and then the
    deletion of its rows, closed by the one fetch that returns nothing.
    Staging ends empty and the sink has gained every row, tagged [sendgrid].
    With 1200 rows the batches have 500, 500 and 200 rows. *)
Theorem drain_loop_empties_staging fuel st :
  NoDup (staging st) →
  length (staging st) ≤ fuel →
  ∃ st' batches,
    drainSendgrid fuel st = Some st' ∧
    Batches (staging st) batches ∧
    Forall (λ batch, 0 < length batch ≤ BATCH_SIZE) batches ∧
    calls st'
    = calls st
      ++ (batches ≫= λ batch,
            [Find batch;
             InsertMessages ((λ row, {| item := row; provider := sendgrid |}) <$> batch)]
            ++ (Delete <$> batch))
      ++ [Find []] ∧
    staging st' = [] ∧
    sink st'
    = sink st ++ ((λ row, {| item := row; provider := sendgrid |}) <$> staging st) ∧
    (length (staging st) = 1200 →
       length <$> batches = [500; 500; 200] ∧
       length (sink st') = length (sink st) + 1200).
Proof.
  intros Hnd Hfuel.
  destruct (drainLoop_spec fuel st Hnd Hfuel)
    as (st' & batches & Hrun & Hbatches & Hcalls & Hstaging & Hsink).
  exists st', batches.
  split; [exact Hrun|]. split; [done|]. split.
  { clear -Hbatches. induction Hbatches as [|rows batches Hne _ IH]; constructor; [|done].
    assert (0 < length rows) by (destruct rows; [done | simpl; lia]).
    rewrite length_take. unfold BATCH_SIZE. lia. }
  repeat (split; [done|]).
  intros Hlen. split; [by eapply Batches_1200|].
  by rewrite Hsink, length_app, length_fmap, Hlen.
Qed.

End SendgridDrain.

(** **** The jobs on sample data *)

Definition sampleUTCString (t : number) : string :=
  match t with
  | Fin 1767225601000 => "Thu, 01 Jan 2026 00:00:01 GMT"
  | Fin 1767229200000 => "Thu, 01 Jan 2026 01:00:00 GMT"
  | Fin 1767232800000 => "Thu, 01 Jan 2026 02:00:00 GMT"
  | Fin 1767236400000 => "Thu, 01 Jan 2026 03:00:00 GMT"
  | _ => "Invalid Date"
  end.

Definition sampleItem (seconds : Z) (audience customer : value) : Mailgun.Item :=
  {| Mailgun.timestamp := Fin seconds;
     Mailgun.user_variables_audienceId := audience;
     Mailgun.user_variables_customerId := customer;
     Mailgun.event := "delivered";
     Mailgun.message_headers_message_id := "m-1" |}.

Definition firstPage : Mailgun.Events :=
  {| Mailgun.items := [sampleItem 1767229200 (VStr "aud") (VStr "c1");
                       sampleItem 1767232800 (VStr "aud") VUndefined];
     Mailgun.pages_next_number := "p1" |}.

Definition secondPage : Mailgun.Events :=
  {| Mailgun.items := [sampleItem 1767236400 (VStr "aud") (VStr "c2")];
     Mailgun.pages_next_number := "p2" |}.

Definition emptyPage : Mailgun.Events :=
  {| Mailgun.items := []; Mailgun.pages_next_number := "p3" |}.

(** A source that serves two pages of events and then empty pages; its
    state counts the requests served. *)
Definition sampleSource (served : nat) (account : Account) (q : Mailgun.Query)
  : Outcome Mailgun.Events * nat :=
  (Ok match served with
      | 0 => firstPage
      | 1 => secondPage
      | _ => emptyPage
      end,
   S served).

Definition sampleAccount : Account :=
  {| mailgunAPIKey := "key-1"; sendingDomain := "mg.example.com" |}.

Definition sampleWatermark : value := VDate (Fin 1767225600000).

(** Three requests: the third page is empty and no fourth is asked for,
    whatever fuel is left.  The event without a customer id is dropped. *)
Example pull_stops_at_empty_page :
  pullAccount sampleUTCString nat sampleSource 5 sampleAccount sampleWatermark
    {| service := 0; fetched := [] |}
  = Some (Ok [ {| audienceId := VStr "aud"; customerId := VStr "c1"; messageId := "m-1";
                  event := "delivered"; eventProvider := mailgun;
                  createdAt := "Thu, 01 Jan 2026 01:00:00 GMT" |};
               {| audienceId := VStr "aud"; customerId := VStr "c2"; messageId := "m-1";
                  event := "delivered"; eventProvider := mailgun;
                  createdAt := "Thu, 01 Jan 2026 03:00:00 GMT" |} ],
          {| service := 3; fetched := [firstPage; secondPage; emptyPage] |}).
Proof. reflexivity. Qed.

Lemma empty_page_ends_pagination_witness :
  EndsWithin sampleUTCString nat sampleSource sampleAccount sampleWatermark 2 0 None ∧
  is_Some (pullAccount sampleUTCString nat sampleSource 2 sampleAccount sampleWatermark
             {| service := 0; fetched := [] |}).
Proof.
  assert (EndsWithin sampleUTCString nat sampleSource sampleAccount sampleWatermark 2 0 None)
    as Hends.
  { eapply ends_later; [reflexivity|].
    eapply ends_later; [reflexivity|].
    eapply ends_now; reflexivity. }
  split; [exact Hends|].
  apply (empty_page_ends_pagination sampleUTCString nat sampleSource sampleAccount
           sampleWatermark {| service := 0; fetched := [] |}) with (n := 2).
  - exact Hends.
  - lia.
Defined.

Lemma drain_loop_empties_staging_witness :
  NoDup (seq 0 1200) ∧
  ∃ st' batches,
    drainSendgrid 1200 {| staging := seq 0 1200; sink := []; calls := [] |} = Some st' ∧
    length <$> batches = [500; 500; 200] ∧
    calls st'
    = (batches ≫= λ batch,
         [Find batch;
          InsertMessages ((λ row, {| item := row; provider := sendgrid |}) <$> batch)]
         ++ (Delete <$> batch))
      ++ [Find []] ∧
    staging st' = [] ∧
    sink st' = (λ row, {| item := row; provider := sendgrid |}) <$> seq 0 1200.
Proof.
  split; [apply NoDup_seq|].
  destruct (drain_loop_empties_staging 1200
              {| staging := seq 0 1200; sink := []; calls := [] |})
    as (st' & batches & Hrun & _ & _ & Hcalls & Hstaging & Hsink & H1200).
  - apply NoDup_seq.
  - cbn [staging]. rewrite length_seq. lia.
  - exists st', batches. cbn [staging sink calls] in *.
    destruct (H1200 (length_seq 1200 0)) as [Hsizes _].
    split; [exact Hrun|]. split; [exact Hsizes|]. split; [exact Hcalls|].
    split; [exact Hstaging|exact Hsink].
Defined.

(** **** The Mailgun flow on sample data *)

Definition firstMessage : ClickHouseMessage :=
  {| audienceId := VStr "aud"; customerId := VStr "c1"; messageId := "m-1";
     event := "delivered"; eventProvider := mailgun;
     createdAt := "Thu, 01 Jan 2026 01:00:00 GMT" |}.

Definition secondMessage : ClickHouseMessage :=
  {| audienceId := VStr "aud"; customerId := VStr "c2"; messageId := "m-1";
     event := "delivered"; eventProvider := mailgun;
     createdAt := "Thu, 01 Jan 2026 03:00:00 GMT" |}.

(** The sample source, except that the account with the key [key-down] is
    refused. *)
Definition flakySource (served : nat) (account : Account) (q : Mailgun.Query)
  : Outcome Mailgun.Events * nat :=
  if String.eqb (mailgunAPIKey account) "key-down"
  then (Throw "Forbidden", S served)
  else sampleSource served account q.

Definition downAccount : Account :=
  {| mailgunAPIKey := "key-down"; sendingDomain := "down.example.com" |}.

Lemma empty_sink_single_request_witness :
  dateInDB (Some []) = None ∧
  pullAccount sampleUTCString nat sampleSource 0 sampleAccount
    (lastEventFetch (λ _, NaN) 0 (Some [])) {| service := 0; fetched := [] |}
  = Some (Ok [firstMessage], {| service := 1; fetched := [firstPage] |}).
Proof.
  split; [reflexivity|].
  rewrite (empty_sink_single_request (λ _, NaN) sampleUTCString 0 nat sampleSource 0
             sampleAccount {| service := 0; fetched := [] |} (Some []) eq_refl).
  reflexivity.
Defined.

Lemma saved_batch_is_accepted_events_witness :
  ∃ pages,
    [firstPage; secondPage; emptyPage] = [] ++ pages ∧
    [firstMessage; secondMessage]
    = toMessage sampleUTCString
        <$> filter (λ item, accepted item = true) (pages ≫= Mailgun.items) ∧
    Forall wellTagged [firstMessage; secondMessage].
Proof.
  apply (saved_batch_is_accepted_events sampleUTCString nat sampleSource 5 sampleAccount
           sampleWatermark {| service := 0; fetched := [] |}
           [firstMessage; secondMessage]
           {| service := 3; fetched := [firstPage; secondPage; emptyPage] |}).
  reflexivity.
Defined.

Lemma mailgun_flow_appends_tagged_witness :
  ∃ added faults,
    [secondMessage] = [] ++ added ∧
    ["Forbidden"] = [] ++ faults ∧
    Forall wellTagged added.
Proof.
  apply (mailgun_flow_appends_tagged sampleUTCString nat flakySource 1 5 sampleWatermark
           [downAccount; sampleAccount] 2 0
           {| mailgunService := {| service := 0; fetched := [] |};
              message_status := []; errorLog := [] |}
           {| mailgunService := {| service := 3; fetched := [secondPage; emptyPage] |};
              message_status := [secondMessage]; errorLog := ["Forbidden"] |}).
  reflexivity.
Defined.

End CronService.

(* ===================================================================== *)
(** ** IntegrationsProcessor *)
(* ===================================================================== *)

Module IntegrationsProcessor.

Definition hourMs : Z := 60 * 60 * 1000.
Definition dayMs : Z := 24 * hourMs.
Definition weekMs : Z := 7 * dayMs.
Definition monthMs : Z := 30 * dayMs.
Definition yearMs : Z := 365 * dayMs.

Inductive FrequencyUnit := HOUR | DAY | WEEK | MONTH | YEAR.

Definition frequencyUnitToMsMap (unit : FrequencyUnit) : Z :=
  match unit with
  | HOUR => hourMs
  | DAY => dayMs
  | WEEK => weekMs
  | MONTH => monthMs
  | YEAR => yearMs
  end.

Inductive DBType := DATABRICKS | POSTGRESQL.

(** The columns of the Database entity the processor reads. *)
Record Database := {
  id : string;
  dbType : DBType;
  frequencyUnit : FrequencyUnit;
  frequencyNumber : Z;
  lastSync : string;
  databricksToken : option string;
  databricksHost : option string;
  databricksPath : option string;
  query : string
}.

(** [owner.id] is all the processor reads of an account. *)
Record Account := { account_id : value }.

Record Integration := { database : option Database; owner : Account }.

(** [job.data] *)
Record Job := { integration : option Integration }.

(** A customer document, and a row a warehouse query returns
    ([Record<string, any>]). *)
Abbreviation Customer := (gmap string value).
Abbreviation Row := (gmap string value).

(** [obj[key]] *)
Definition field (obj : gmap string value) (key : string) : value :=
  default VUndefined (obj !! key).

(** The customer model: [findOne] answers a document handle with its
    fields or null, [save] persists the fields under a handle, [create]
    adds a document.  Each may throw. *)
Class CustomerModel (D : Type) := {
  findOne : value → value → D → Outcome (option (nat * Customer)) * D;
  save : nat → Customer → D → Outcome unit * D;
  create : Customer → D → Outcome unit * D
}.

(** The Databricks client, session and query operation, seen as one
    remote state.  Each call may throw. *)
Class Databricks (W : Type) := {
  connect : string → string → string → W → Outcome unit * W;
  openSession : W → Outcome unit * W;
  executeStatement : string → W → Outcome unit * W;
  fetchChunk : W → Outcome (list Row) * W;
  hasMoreRows : W → Outcome bool * W;
  close : W → Outcome unit * W
}.

(** The calls on the collaborators, as they are issued.  [CloseSession]
    stands for [session.close()], which the client library offers. *)
Inductive Call :=
| Connect
| OpenSession
| ExecuteStatement (statement : string)
| FetchChunk
| HasMoreRows
| CloseOperation
| CloseSession
| FindOne (databricksId ownerId : value)
| Save (handle : nat) (doc : Customer)
| Create (doc : Customer)
| SaveDatabase (database_id : string) (lastSync : string).

Section Processor.

Context {D W : Type} `{!CustomerModel D} `{!Databricks W}.

(** [Date.parse], and [new Date(t).toUTCString()] as a function of the
    number [t], belong to the runtime. *)
Variable parseDate : string -> number.
Variable toUTCString : number -> string.

(** Everything a job run can touch: the customer collection, the remote
    warehouse, the [lastSync] column of the databases repository, and the
    calls issued so far. *)
Record World := {
  customers : D;
  warehouse : W;
  lastSyncs : gmap string string;
  log : list Call
}.

(** An async computation: from a world to an outcome and the world it
    leaves, or [None] when the fuel given to a loop ran out. *)
Definition M (A : Type) : Type := World → option (Outcome A * World).

#[local] Instance M_ret : MRet M := λ A a w, Some (Ok a, w).

#[local] Instance M_bind : MBind M := λ A B k m w,
  match m w with
  | Some (Ok a, w') => k a w'
  | Some (Throw e, w') => Some (Throw e, w')
  | None => None
  end.

Definition throw {A} (e : string) : M A := λ w, Some (Throw e, w).

Definition call (c : Call) : M unit := λ w,
  Some (Ok tt, {| customers := customers w; warehouse := warehouse w;
                  lastSyncs := lastSyncs w; log := log w ++ [c] |}).

Definition onCustomers {A} (op : D → Outcome A * D) : M A := λ w,
  let (out, docs) := op (customers w) in
  Some (out, {| customers := docs; warehouse := warehouse w;
                lastSyncs := lastSyncs w; log := log w |}).

Definition onWarehouse {A} (op : W → Outcome A * W) : M A := λ w,
  let (out, remote) := op (warehouse w) in
  Some (out, {| customers := customers w; warehouse := remote;
                lastSyncs := lastSyncs w; log := log w |}).

(** **** handleDatabricksSync *)

(** [for (const key of Object.keys(customer)) { if (key === 'id') continue;
     customerInDb[key] = customer[key]; }] *)
Definition assign (customerInDb : Customer) (kv : string * value) : Customer :=
  if bool_decide (kv.1 = "id") then customerInDb else <[kv.1 := kv.2]> customerInDb.

Definition merge (customerInDb : Customer) (customer : Row) : Customer :=
  foldl assign customerInDb (map_to_list customer).

(** [{ ...customer, ownerId: owner.id, id: undefined, databricksId: customer.id }] *)
Definition newCustomer (customer : Row) (owner : Account) : Customer :=
  <["databricksId" := field customer "id"]>
    (<["id" := VUndefined]> (<["ownerId" := account_id owner]> customer)).

(** The body of [for (const customer of customers)]. *)
Definition syncCustomer (owner : Account) (customer : Row) : M unit :=
  if negb (truthy (field customer "id")) then mret tt
  else
    call (FindOne (field customer "id") (account_id owner));;
    customerInDb ← onCustomers (findOne (field customer "id") (account_id owner));
    match customerInDb with
    | Some (handle, doc) =>
        call (Save handle (merge doc customer));;
        onCustomers (save handle (merge doc customer))
    | None =>
        call (Create (newCustomer customer owner));;
        onCustomers (create (newCustomer customer owner))
    end.

Fixpoint forEach {A} (f : A → M unit) (items : list A) : M unit :=
  match items with
  | [] => mret tt
  | x :: rest => f x;; forEach f rest
  end.

(** [let hasMoreRows = true; while (hasMoreRows) { ... }] *)
Fixpoint fetchLoop (fuel : nat) (owner : Account) : M unit :=
  match fuel with
  | O => λ _, None
  | S fuel' =>
      call FetchChunk;;
      customers ← onWarehouse fetchChunk;
      forEach (syncCustomer owner) customers;;
      call HasMoreRows;;
      more ← onWarehouse hasMoreRows;
      if more : bool then fetchLoop fuel' owner else mret tt
  end.

(** Everything up to the end of the [while] loop. *)
Definition openAndFetch (fuel : nat) (database : Database) (owner : Account) : M unit :=
  call Connect;;
  onWarehouse (connect (default "" (databricksToken database))
                       (default "" (databricksHost database))
                       (default "" (databricksPath database)));;
  call OpenSession;;
  onWarehouse openSession;;
  call (ExecuteStatement (query database));;
  onWarehouse (executeStatement (query database));;
  fetchLoop fuel owner.

Definition handleDatabricksSync (fuel : nat) (database : Database) (owner : Account) : M unit :=
  openAndFetch fuel database owner;;
  call CloseOperation;;
  onWarehouse close.

(** **** handleDatabaseSync *)

Definition databasesMap (fuel : nat) (t : DBType) : Database → Account → M unit :=
  match t with
  | DATABRICKS => λ database owner, handleDatabricksSync fuel database owner
  | POSTGRESQL => λ database owner, mret tt
  end.

(** [databasesRepository.save({ id, lastSync })] *)
Definition saveDatabase (database_id : string) (stamp : string) : M unit := λ w,
  Some (Ok tt, {| customers := customers w; warehouse := warehouse w;
                  lastSyncs := <[database_id := stamp]> (lastSyncs w);
                  log := log w ++ [SaveDatabase database_id stamp] |}).

(** [new Date(lastSync).getTime() + frequencyNumber * frequencyUnitToMsMap[frequencyUnit]] *)
Definition syncTime (database : Database) : number :=
  num_add (Date_of parseDate (Some (lastSync database)))
          (num_mul (Fin (frequencyNumber database))
                   (Fin (frequencyUnitToMsMap (frequencyUnit database)))).

(** The connector call followed by the write-back of [lastSync]. *)
Definition syncAndStamp (fuel : nat) (now' : Z) (database : Database) (owner : Account)
  : M unit :=
  databasesMap fuel (dbType database) database owner;;
  saveDatabase (id database) (toUTCString (Fin now')).

(** [now] is the clock read by the due check, [now'] the one read when
    [lastSync] is written back.  The check compares [new Date(syncTime)]
    with [new Date()]: a [syncTime] outside the range of a Date gives the
    invalid Date, which is before nothing. *)
Definition handleDatabaseSync (fuel : nat) (now now' : Z) (job : Job) : M unit :=
  match integration job with
  | None => throw "Wrong integration was passed to job"
  | Some integration =>
      match database integration with
      | None => throw "Wrong integration was passed to job"
      | Some database =>
          if num_lt (timeClip (syncTime database)) (Fin now) then mret tt
          else syncAndStamp fuel now' database (owner integration)
      end
  end.

(** **** What a computation adds to the log *)

(** [m] only appends calls to the log, all of them satisfying [P]. *)
Definition Emits {A} (P : Call → Prop) (m : M A) : Prop :=
  ∀ w out w', m w = Some (out, w') →
    ∃ calls, log w' = log w ++ calls ∧ Forall P calls.

Lemma Emits_ret {A} P (a : A) : Emits P (mret a).
Proof.
  intros w out w' [= <- <-]. exists []. by rewrite app_nil_r.
Qed.

Lemma Emits_call (P : Call → Prop) c : P c → Emits P (call c).
Proof.
  intros Hc w out w' [= <- <-]. exists [c]. split; [done|]. by constructor.
Qed.

Lemma Emits_onCustomers {A} P (op : D → Outcome A * D) : Emits P (onCustomers op).
Proof.
  intros w out w'. unfold onCustomers. destruct (op _) as [o docs].
  intros [= <- <-]. exists []. by rewrite app_nil_r.
Qed.

Lemma Emits_onWarehouse {A} P (op : W → Outcome A * W) : Emits P (onWarehouse op).
Proof.
  intros w out w'. unfold onWarehouse. destruct (op _) as [o remote].
  intros [= <- <-]. exists []. by rewrite app_nil_r.
Qed.

Lemma Emits_saveDatabase (P : Call → Prop) database_id stamp :
  P (SaveDatabase database_id stamp) → Emits P (saveDatabase database_id stamp).
Proof.
  intros Hc w out w' [= <- <-]. exists [SaveDatabase database_id stamp].
  split; [done|]. by constructor.
Qed.

Lemma Emits_bind {A B} P (m : M A) (k : A → M B) :
  Emits P m → (∀ a, Emits P (k a)) → Emits P (m ≫= k).
Proof.
  intros Hm Hk w out w'. unfold mbind, M_bind.
  destruct (m w) as [[[a|e] w1]|] eqn:Hmw; [| |done].
  - intros Hkw. destruct (Hm _ _ _ Hmw) as (calls1 & Hlog1 & HP1).
    destruct (Hk a _ _ _ Hkw) as (calls2 & Hlog2 & HP2).
    exists (calls1 ++ calls2). split; [by rewrite Hlog2, Hlog1, app_assoc|].
    by apply Forall_app.
  - intros [= <- <-]. by apply (Hm _ _ _ Hmw).
Qed.

Lemma Emits_weaken {A} (P Q : Call → Prop) (m : M A) :
  (∀ c, P c → Q c) → Emits P m → Emits Q m.
Proof.
  intros HPQ Hm w out w' Hrun. destruct (Hm _ _ _ Hrun) as (calls & Hlog & HP).
  exists calls. split; [done|]. eapply Forall_impl; eauto.
Qed.

Lemma Emits_forEach {A} P (f : A → M unit) items :
  (∀ x, Emits P (f x)) → Emits P (forEach f items).
Proof.
  intros Hf. induction items as [|x items IH]; simpl.
  - apply Emits_ret.
  - apply Emits_bind; [apply Hf | by intros _].
Qed.

(** [session.close()] and [queryOperation.close()] *)
Definition isRelease (c : Call) : bool :=
  match c with
  | CloseOperation | CloseSession => true
  | _ => false
  end.

(** The calls that reach the customer collection. *)
Definition isCustomerCall (c : Call) : bool :=
  match c with
  | FindOne _ _ | Save _ _ | Create _ => true
  | _ => false
  end.

Lemma Emits_syncCustomer owner customer :
  Emits (λ c, isRelease c = false) (syncCustomer owner customer).
Proof.
  unfold syncCustomer. destruct (negb _); [apply Emits_ret|].
  apply Emits_bind; [by apply Emits_call|intros _].
  apply Emits_bind; [apply Emits_onCustomers|intros [[handle doc]|]].
  - apply Emits_bind; [by apply Emits_call | intros _; apply Emits_onCustomers].
  - apply Emits_bind; [by apply Emits_call | intros _; apply Emits_onCustomers].
Qed.

Lemma Emits_fetchLoop fuel owner :
  Emits (λ c, isRelease c = false) (fetchLoop fuel owner).
Proof.
  induction fuel as [|fuel IH]; simpl; [by intros w out w'|].
  apply Emits_bind; [by apply Emits_call|intros _].
  apply Emits_bind; [apply Emits_onWarehouse|intros rows].
  apply Emits_bind; [apply Emits_forEach; intros; apply Emits_syncCustomer|intros _].
  apply Emits_bind; [by apply Emits_call|intros _].
  apply Emits_bind; [apply Emits_onWarehouse|intros [|]]; [done|apply Emits_ret].
Qed.

Lemma Emits_openAndFetch fuel database owner :
  Emits (λ c, isRelease c = false) (openAndFetch fuel database owner).
Proof.
  unfold openAndFetch.
  repeat (apply Emits_bind;
          [first [by apply Emits_call | apply Emits_onWarehouse] | intros _]).
  apply Emits_fetchLoop.
Qed.

Lemma Forall_not_release calls c :
  Forall (λ c, isRelease c = false) calls → isRelease c = true → c ∉ calls.
Proof.
  intros Hall Hc Hin. rewrite Forall_forall in Hall.
  apply Hall in Hin. congruence.
Qed.

(** C2 (as amended).  The query operation is closed only when connecting,
    executing and the whole fetch loop have completed without a throw, and
    then [close] is the last call of the run.  When one of these steps throws
    (a [fetchChunk], a read or a write of a customer among them), the run
    ends with that throw in the world the throw left, and no [close] has been
    issued.  The session itself is closed in no run. *)
Theorem close_only_after_successful_fetch fuel database owner w out w' :
  handleDatabricksSync fuel database owner w = Some (out, w') →
  ∃ calls,
    log w' = log w ++ calls ∧
    (CloseSession ∉ calls) ∧
    ((∃ w1, openAndFetch fuel database owner w = Some (Ok tt, w1)) →
       ∃ before, calls = before ++ [CloseOperation] ∧ CloseOperation ∉ before) ∧
    (∀ e w1, openAndFetch fuel database owner w = Some (Throw e, w1) →
       out = Throw e ∧ w' = w1 ∧ CloseOperation ∉ calls).
Proof.
  unfold handleDatabricksSync, mbind, M_bind.
  destruct (openAndFetch fuel database owner w) as [[[[]|e] w1]|] eqn:Hfetch; [| |done].
  - destruct (Emits_openAndFetch _ _ _ _ _ _ Hfetch) as (before & Hlog & Hbefore).
    unfold call, onWarehouse. simpl. destruct (close (warehouse w1)) as [o remote].
    intros [= <- <-]. simpl. exists (before ++ [CloseOperation]).
    split; [by rewrite Hlog, app_assoc|]. split.
    { intros Hin. apply elem_of_app in Hin as [Hin|Hin].
      - by apply (Forall_not_release _ CloseSession Hbefore).
      - apply list_elem_of_singleton in Hin. done. }
    split; [|by intros e' w2 [=]].
    intros _. exists before. split; [done|].
    by apply (Forall_not_release _ CloseOperation Hbefore).
  - destruct (Emits_openAndFetch _ _ _ _ _ _ Hfetch) as (calls & Hlog & Hcalls).
    intros [= <- <-]. exists calls. split; [done|]. split.
    { by apply (Forall_not_release _ CloseSession Hcalls). }
    split; [by intros (w2 & [=])|].
    intros e' w2 [= <- <-]. repeat split.
    by apply (Forall_not_release _ CloseOperation Hcalls).
Qed.

(** **** The due check *)

(** [m] never returns without having issued a call. *)
Definition Grows {A} (m : M A) : Prop :=
  ∀ w out w', m w = Some (out, w') → length (log w) < length (log w').

Lemma Grows_call c : Grows (call c).
Proof.
  intros w out w' [= <- <-]. simpl. rewrite length_app. simpl. lia.
Qed.

Lemma Grows_bind {A B} (m : M A) (k : A → M B) :
  Grows m → (∀ a, Emits (λ _, True) (k a)) → Grows (m ≫= k).
Proof.
  intros Hm Hk w out w'. unfold mbind, M_bind.
  destruct (m w) as [[[a|e] w1]|] eqn:Hmw; [| |done].
  - intros Hkw. specialize (Hm _ _ _ Hmw).
    destruct (Hk a _ _ _ Hkw) as (calls & Hlog & _).
    rewrite Hlog, length_app. lia.
  - intros [= <- <-]. by apply (Hm _ _ _ Hmw).
Qed.

Lemma Emits_handleDatabricksSync fuel database owner :
  Emits (λ _, True) (handleDatabricksSync fuel database owner).
Proof.
  unfold handleDatabricksSync.
  apply Emits_bind.
  { eapply Emits_weaken; [|apply Emits_openAndFetch]. done. }
  intros _. apply Emits_bind; [by apply Emits_call|intros _; apply Emits_onWarehouse].
Qed.

Lemma Grows_handleDatabricksSync fuel database owner :
  Grows (handleDatabricksSync fuel database owner).
Proof.
  unfold handleDatabricksSync.
  apply Grows_bind.
  - unfold openAndFetch. apply Grows_bind; [apply Grows_call|intros _].
    repeat (apply Emits_bind;
            [first [by apply Emits_call | apply Emits_onWarehouse] | intros _]).
    eapply Emits_weaken; [|apply Emits_fetchLoop]. done.
  - intros _. apply Emits_bind; [by apply Emits_call|intros _; apply Emits_onWarehouse].
Qed.

(** A dispatched sync is told apart from a skipped one by the log. *)
Lemma Grows_syncAndStamp fuel now' database owner :
  Grows (syncAndStamp fuel now' database owner).
Proof.
  unfold syncAndStamp, databasesMap. destruct (dbType database).
  - apply Grows_bind; [apply Grows_handleDatabricksSync|].
    intros _. by apply Emits_saveDatabase.
  - intros w out w' [= <- <-]. simpl. rewrite length_app. simpl. lia.
Qed.



(** A [lastSync] that does not read as a date makes the due time NaN, which
    is before nothing: the task is dispatched. *)
Lemma unparsed_lastSync_dispatches fuel now now' job integ db w :
  integration job = Some integ →
  database integ = Some db →
  parseDate (lastSync db) = NaN →
  handleDatabaseSync fuel now now' job w = syncAndStamp fuel now' db (owner integ) w.
Proof.
  intros Hjob Hdb Hnan. unfold handleDatabaseSync, syncTime, Date_of.
  by rewrite Hjob, Hdb, Hnan.
Qed.


(** C10.  A task that passes validation and the due check and whose
    [dbType] is POSTGRESQL makes no call on the customer collection and
    leaves it as it was; it completes, and [lastSync] of its database is
    overwritten with the current time all the same. *)
Theorem postgresql_sync_only_stamps fuel now now' job integ db w :
  integration job = Some integ →
  database integ = Some db →
  dbType db = POSTGRESQL →
  num_lt (timeClip (syncTime db)) (Fin now) = false →
  ∃ w',
    handleDatabaseSync fuel now now' job w = Some (Ok tt, w') ∧
    customers w' = customers w ∧
    warehouse w' = warehouse w ∧
    log w' = log w ++ [SaveDatabase (id db) (toUTCString (Fin now'))] ∧
    lastSyncs w' = <[id db := toUTCString (Fin now')]> (lastSyncs w).
Proof.
  intros Hjob Hdb Htype Hdue.
  unfold handleDatabaseSync. rewrite Hjob, Hdb, Hdue.
  unfold syncAndStamp. rewrite Htype. simpl.
  eexists. split; [reflexivity|]. done.
Qed.

(** **** Further properties of handleDatabaseSync *)

(** [m] relates the world it starts in to the world it leaves by [R]. *)
Definition Keeps {A} (R : World → World → Prop) (m : M A) : Prop :=
  ∀ w out w', m w = Some (out, w') → R w w'.

Lemma Keeps_ret {A} R `{!Reflexive R} (a : A) : Keeps R (mret a).
Proof. by intros w out w' [= <- <-]. Qed.

Lemma Keeps_bind {A B} R `{!Transitive R} (m : M A) (k : A → M B) :
  Keeps R m → (∀ a, Keeps R (k a)) → Keeps R (m ≫= k).
Proof.
  intros Hm Hk w out w'. unfold mbind, M_bind.
  destruct (m w) as [[[a|e] w1]|] eqn:Hmw; [| |done].
  - intros Hkw. etrans; [by eapply Hm|by eapply Hk].
  - intros [= <- <-]. by eapply Hm.
Qed.

Ltac keeps_bind := apply Keeps_bind; try (solve [apply _]).

Lemma Keeps_forEach {A} R `{!PreOrder R} (f : A → M unit) items :
  (∀ x, Keeps R (f x)) → Keeps R (forEach f items).
Proof.
  intros Hf. induction items as [|x items IH]; simpl.
  - apply Keeps_ret; apply _.
  - keeps_bind; [apply Hf|by intros _].
Qed.

Section KeepsConnector.

Variable R : World → World → Prop.
Context `{!PreOrder R}.
Hypothesis Keeps_call : ∀ c, Keeps R (call c).
Hypothesis Keeps_onWarehouse : ∀ A (op : W → Outcome A * W), Keeps R (onWarehouse op).

Lemma Keeps_fetchLoop fuel owner :
  (∀ customer, Keeps R (syncCustomer owner customer)) →
  Keeps R (fetchLoop fuel owner).
Proof.
  intros Hsync. induction fuel as [|fuel IH]; simpl; [by intros w out w'|].
  keeps_bind; [apply Keeps_call|intros _].
  keeps_bind; [apply Keeps_onWarehouse|intros rows].
  keeps_bind; [by apply Keeps_forEach|intros _].
  keeps_bind; [apply Keeps_call|intros _].
  keeps_bind; [apply Keeps_onWarehouse|intros [|]]; [done|].
  apply Keeps_ret; apply _.
Qed.

Lemma Keeps_handleDatabricksSync fuel database owner :
  (∀ customer, Keeps R (syncCustomer owner customer)) →
  Keeps R (handleDatabricksSync fuel database owner).
Proof.
  intros Hsync. unfold handleDatabricksSync, openAndFetch.
  keeps_bind.
  - repeat (keeps_bind; [first [apply Keeps_call | apply Keeps_onWarehouse]|intros _]).
    by apply Keeps_fetchLoop.
  - intros _. keeps_bind; [apply Keeps_call|intros _; apply Keeps_onWarehouse].
Qed.

End KeepsConnector.

(** No connector writes the [lastSync] column. *)
Lemma connector_keeps_lastSyncs fuel t database owner :
  Keeps (λ w w', lastSyncs w' = lastSyncs w) (databasesMap fuel t database owner).
Proof.
  assert (PreOrder (λ w w' : World, lastSyncs w' = lastSyncs w)) as Hpre.
  { split; [by intros w|]. intros w1 w2 w3 H12 H23. by rewrite H23. }
  assert (∀ c, Keeps (λ w w' : World, lastSyncs w' = lastSyncs w) (call c)) as Hcall
    by (by intros c w out w' [= <- <-]).
  assert (∀ A (op : D → Outcome A * D),
            Keeps (λ w w' : World, lastSyncs w' = lastSyncs w) (onCustomers op)) as Hdocs.
  { intros A op w out w'. unfold onCustomers. destruct (op _). by intros [= <- <-]. }
  destruct t; simpl; [|apply Keeps_ret; apply _].
  apply Keeps_handleDatabricksSync; [done|done| |].
  - intros A op w out w'. unfold onWarehouse. destruct (op _). by intros [= <- <-].
  - intros customer. unfold syncCustomer. destruct (negb _); [apply Keeps_ret; apply _|].
    keeps_bind; [apply Hcall|intros _].
    keeps_bind; [apply Hdocs|intros [[handle doc]|]];
      (keeps_bind; [apply Hcall|intros _; apply Hdocs]).
Qed.

Lemma Emits_databasesMap fuel t database owner :
  Emits (λ _, True) (databasesMap fuel t database owner).
Proof.
  destruct t; simpl; [apply Emits_handleDatabricksSync|apply Emits_ret].
Qed.

(** X8.  [lastSync] moves only when a run completes after its connector
    did: a run that throws (no integration, no database configuration, or a
    connector that threw) leaves every [lastSync] as it was; a run that
    completes either skipped and changed nothing at all, or wrote the one
    [lastSync] of its database, as its last call. *)
Theorem lastSync_moves_only_on_completion fuel now now' job w out w' :
  handleDatabaseSync fuel now now' job w = Some (out, w') →
  match out with
  | Throw e => lastSyncs w' = lastSyncs w
  | Ok _ =>
      w' = w ∨
      ∃ integ db before,
        integration job = Some integ ∧ database integ = Some db ∧
        lastSyncs w' = <[id db := toUTCString (Fin now')]> (lastSyncs w) ∧
        log w' = log w ++ before ++ [SaveDatabase (id db) (toUTCString (Fin now'))]
  end.
Proof.
  unfold handleDatabaseSync.
  destruct (integration job) as [integ|] eqn:Hjob; [|by intros [= <- <-]].
  destruct (database integ) as [db|] eqn:Hdb; [|by intros [= <- <-]].
  destruct (num_lt _ _); [intros [= <- <-]; by left|].
  unfold syncAndStamp, mbind, M_bind.
  destruct (databasesMap fuel (dbType db) db (owner integ) w) as [[[[]|e] w1]|] eqn:Hsync;
    [| |done].
  - pose proof (connector_keeps_lastSyncs _ _ _ _ _ _ _ Hsync) as Hkept.
    destruct (Emits_databasesMap _ _ _ _ _ _ _ Hsync) as (before & Hlog & _).
    simpl in Hkept.
    intros [= <- <-]. right. exists integ, db, before. simpl.
    rewrite Hkept, Hlog. repeat (split; [done|]).
    by rewrite app_assoc.
  - intros [= <- <-]. by apply (connector_keeps_lastSyncs _ _ _ _ _ _ _ Hsync).
Qed.

(** X9.  A task that was skipped stays skipped: if a run at [now] returned
    without touching the world, a run of the same task at any later instant
    returns at once too, in whatever world.  Skipping writes no [lastSync],
    so nothing in the task brings it back. *)
Theorem skipped_task_stays_skipped fuel fuel2 now later now' later' job w w2 :
  handleDatabaseSync fuel now now' job w = Some (Ok tt, w) →
  (now ≤ later)%Z →
  handleDatabaseSync fuel2 later later' job w2 = Some (Ok tt, w2).
Proof.
  unfold handleDatabaseSync.
  destruct (integration job) as [integ|]; [|done].
  destruct (database integ) as [db|]; [|done].
  destruct (num_lt (timeClip (syncTime db)) (Fin now)) eqn:Hdue.
  - intros _ Hlater.
    replace (num_lt (timeClip (syncTime db)) (Fin later)) with true; [done|].
    symmetry. destruct (timeClip (syncTime db)) as [|due]; [done|]. simpl in *.
    apply Z.ltb_lt. apply Z.ltb_lt in Hdue. lia.
  - intros Hrun. apply Grows_syncAndStamp in Hrun. lia.
Qed.

(** X12.  A chunk is processed exactly as if its rows without a truthy
    [id] were not in it: such a row costs no call and no change, and the rows
    after it are still synced. *)
Theorem rows_without_id_are_transparent owner (rows : list Row) w :
  forEach (syncCustomer owner) rows w
  = forEach (syncCustomer owner)
      (filter (λ customer : Row, truthy (field customer "id") = true) rows) w.
Proof.
  revert w. induction rows as [|customer rows IH]; intros w; [done|].
  destruct (truthy (field customer "id")) eqn:Hid.
  - rewrite filter_cons_True by done. cbn [forEach]. unfold mbind, M_bind.
    destruct (syncCustomer owner customer w) as [[[[]|e] w1]|]; [|done|done].
    apply IH.
  - rewrite filter_cons_False by congruence. cbn [forEach].
    unfold mbind at 1, M_bind at 1. unfold syncCustomer at 1. rewrite Hid.
    cbn [negb]. unfold mret, M_ret. apply IH.
Qed.

End Processor.

(** **** Two collaborators to run the processor on *)

Definition matches (databricksId ownerId : value) (doc : Customer) : bool :=
  value_eqb (field doc "databricksId") databricksId
  && value_eqb (field doc "ownerId") ownerId.

(** A customer collection held in memory: the handle of a document is its
    position; no call throws. *)
#[export] Instance memoryCustomers : CustomerModel (list Customer) := {|
  findOne databricksId ownerId docs :=
    (Ok (list_find (λ doc, matches databricksId ownerId doc = true) docs), docs);
  save handle doc docs := (Ok tt, <[handle := doc]> docs);
  create doc docs := (Ok tt, docs ++ [doc])
|}.

(** A warehouse that plays a script: the answers of the successive
    [fetchChunk] calls, each a chunk or a throw. *)
#[export] Instance scriptedWarehouse : Databricks (list (Outcome (list Row))) := {|
  connect token host path script := (Ok tt, script);
  openSession script := (Ok tt, script);
  executeStatement statement script := (Ok tt, script);
  fetchChunk script :=
    match script with
    | [] => (Ok [], [])
    | answer :: rest => (answer, rest)
    end;
  hasMoreRows script := (Ok (bool_decide (script ≠ [])), script);
  close script := (Ok tt, script)
|}.

(** **** Merging a warehouse row into the customer collection *)

Lemma foldl_assign_other entries (doc : Customer) k :
  k ∉ entries.*1 ∨ k = "id" → foldl assign doc entries !! k = doc !! k.
Proof.
  revert doc. induction entries as [|e entries IH]; intros doc Hk; [done|].
  simpl. rewrite IH.
  - unfold assign. case_bool_decide as Hid; [done|].
    destruct Hk as [Hk | Hk]; [|subst k; by rewrite lookup_insert_ne].
    simpl in Hk. apply not_elem_of_cons in Hk as [Hne _].
    by rewrite lookup_insert_ne.
  - destruct Hk as [Hk|Hk]; [left|by right].
    simpl in Hk. by apply not_elem_of_cons in Hk as [_ Hk].
Qed.

Lemma foldl_assign_present (entries : list (string * value)) (doc : Customer) k v :
  NoDup entries.*1 → (k, v) ∈ entries → k ≠ "id" →
  foldl assign doc entries !! k = Some v.
Proof.
  revert doc. induction entries as [|e entries IH]; intros doc Hnd Hin Hid;
    [by apply elem_of_nil in Hin|].
  simpl in Hnd. apply NoDup_cons in Hnd as [Hfresh Hnd].
  apply elem_of_cons in Hin as [<-|Hin]; simpl.
  - rewrite foldl_assign_other by (by left).
    unfold assign. simpl. rewrite bool_decide_eq_false_2 by done.
    apply lookup_insert_eq.
  - by apply IH.
Qed.

(** Every returned field but [id] is written; nothing else changes. *)
Lemma merge_written (doc : Customer) (customer : Row) k v :
  customer !! k = Some v → k ≠ "id" → merge doc customer !! k = Some v.
Proof.
  intros Hk Hid. unfold merge.
  apply foldl_assign_present; [apply NoDup_fst_map_to_list| |done].
  by apply elem_of_map_to_list.
Qed.

Lemma merge_kept (doc : Customer) (customer : Row) k :
  customer !! k = None ∨ k = "id" → merge doc customer !! k = doc !! k.
Proof.
  intros Hk. unfold merge. apply foldl_assign_other.
  destruct Hk as [Hk|Hk]; [left|by right].
  intros Hin. apply list_elem_of_fmap in Hin as ([k' v] & -> & Hin).
  apply elem_of_map_to_list in Hin. simpl in Hk. congruence.
Qed.

Lemma newCustomer_fields (customer : Row) owner :
  (∀ k, k ∉ ["id"; "ownerId"; "databricksId"] →
        newCustomer customer owner !! k = customer !! k) ∧
  newCustomer customer owner !! "ownerId" = Some (account_id owner) ∧
  newCustomer customer owner !! "databricksId" = Some (field customer "id") ∧
  newCustomer customer owner !! "id" = Some VUndefined.
Proof.
  unfold newCustomer. split; [|split; [|split]].
  - intros k Hk. rewrite !not_elem_of_cons in Hk. destruct Hk as (? & ? & ? & _).
    by rewrite !lookup_insert_ne.
  - by rewrite lookup_insert_ne, lookup_insert_ne, lookup_insert_eq.
  - by rewrite lookup_insert_eq.
  - by rewrite lookup_insert_ne, lookup_insert_eq.
Qed.

Section WarehouseMerge.

Context {W : Type}.

(** C5 (as amended).  A row whose [id] is falsy (absent, null, 0, NaN, the
    empty string or false) is skipped: no call, no change.  For a row with a
    truthy [id]: when a document matches (databricksId, ownerId), the first
    such document receives every returned field except [id] and keeps its
    other fields, and no other document changes; when none matches, one
    document is added that holds the returned fields other than [id],
    [ownerId] and [databricksId], the owner's id under [ownerId], the row's
    id under [databricksId], and [undefined] under [id]. *)
Theorem warehouse_row_merged_or_created (owner : Account) (customer : Row)
    (w : World (D := list Customer) (W := W)) :
  (truthy (field customer "id") = false →
     syncCustomer owner customer w = Some (Ok tt, w)) ∧
  (truthy (field customer "id") = true →
   ∀ handle doc,
     list_find (λ d, matches (field customer "id") (account_id owner) d = true)
               (customers w) = Some (handle, doc) →
     ∃ w',
       syncCustomer owner customer w = Some (Ok tt, w') ∧
       customers w' = <[handle := merge doc customer]> (customers w) ∧
       (∀ k v, customer !! k = Some v → k ≠ "id" → merge doc customer !! k = Some v) ∧
       (∀ k, customer !! k = None ∨ k = "id" → merge doc customer !! k = doc !! k) ∧
       log w' = log w ++ [FindOne (field customer "id") (account_id owner);
                          Save handle (merge doc customer)]) ∧
  (truthy (field customer "id") = true →
   list_find (λ d, matches (field customer "id") (account_id owner) d = true)
             (customers w) = None →
     ∃ w',
       syncCustomer owner customer w = Some (Ok tt, w') ∧
       customers w' = customers w ++ [newCustomer customer owner] ∧
       (∀ k, k ∉ ["id"; "ownerId"; "databricksId"] →
             newCustomer customer owner !! k = customer !! k) ∧
       newCustomer customer owner !! "ownerId" = Some (account_id owner) ∧
       newCustomer customer owner !! "databricksId" = Some (field customer "id") ∧
       log w' = log w ++ [FindOne (field customer "id") (account_id owner);
                          Create (newCustomer customer owner)]).
Proof.
  split; [|split].
  - intros Hid. unfold syncCustomer. rewrite Hid. by destruct w.
  - intros Hid handle doc Hfind. unfold syncCustomer. rewrite Hid. simpl.
    unfold mbind, M_bind, call, onCustomers. simpl. rewrite Hfind. simpl.
    eexists. split; [reflexivity|]. simpl.
    split; [done|]. split; [apply merge_written|]. split; [apply merge_kept|].
    by rewrite <- app_assoc.
  - intros Hid Hfind. unfold syncCustomer. rewrite Hid. simpl.
    unfold mbind, M_bind, call, onCustomers. simpl. rewrite Hfind. simpl.
    eexists. split; [reflexivity|]. simpl.
    destruct (newCustomer_fields customer owner) as (Hother & Hown & Hdbx & _).
    repeat (split; [done|]). by rewrite <- app_assoc.
Qed.

End WarehouseMerge.

(** **** Further properties of the sync on a collection in memory *)

Lemma value_eqb_refl v : value_eqb v v = true.
Proof.
  revert v. fix IH 1. intros [| |b|[|z]|s|[|z]|items]; simpl; try done.
  - by destruct b.
  - apply Z.eqb_refl.
  - apply String.eqb_refl.
  - apply Z.eqb_refl.
  - induction items as [|x items IHitems]; [done|]. by rewrite IH, IHitems.
Qed.

Lemma merge_merge (doc : Customer) (customer : Row) :
  merge (merge doc customer) customer = merge doc customer.
Proof.
  apply map_eq. intros k.
  destruct (customer !! k) as [v|] eqn:Hk.
  - destruct (decide (k = "id")) as [Hid|Hid].
    + rewrite (merge_kept (merge doc customer)); [done|by right].
    + by rewrite !(merge_written _ customer k v).
  - rewrite (merge_kept (merge doc customer)); [done|by left].
Qed.

Lemma merge_newCustomer (customer : Row) owner :
  customer !! "ownerId" = None → customer !! "databricksId" = None →
  merge (newCustomer customer owner) customer = newCustomer customer owner.
Proof.
  intros Hown Hdbx. apply map_eq. intros k.
  destruct (customer !! k) as [v|] eqn:Hk.
  - destruct (decide (k = "id")) as [Hid|Hid].
    + apply merge_kept. by right.
    + rewrite (merge_written _ customer k v) by done.
      destruct (newCustomer_fields customer owner) as (Hother & _).
      rewrite Hother; [done|].
      rewrite !not_elem_of_cons. repeat split; [done| | |apply not_elem_of_nil];
        intros ->; congruence.
  - apply merge_kept. by left.
Qed.

Lemma matches_merge databricksId ownerId (doc : Customer) (customer : Row) :
  customer !! "ownerId" = None → customer !! "databricksId" = None →
  matches databricksId ownerId (merge doc customer) = matches databricksId ownerId doc.
Proof.
  intros Hown Hdbx. unfold matches, field.
  by rewrite !merge_kept by (by left).
Qed.

Lemma matches_newCustomer (customer : Row) owner :
  matches (field customer "id") (account_id owner) (newCustomer customer owner) = true.
Proof.
  unfold matches, field at 1 3.
  destruct (newCustomer_fields customer owner) as (_ & -> & -> & _).
  simpl. by rewrite !value_eqb_refl.
Qed.

Section MemoryCustomers.

Context {W : Type} `{!Databricks W}.

(** What one row does to the collection. *)
Lemma syncCustomer_customers owner (customer : Row)
    (w : World (D := list Customer) (W := W)) :
  ∃ w',
    syncCustomer owner customer w = Some (Ok tt, w') ∧
    customers w'
    = if truthy (field customer "id") then
        match list_find (λ d, matches (field customer "id") (account_id owner) d = true)
                        (customers w) with
        | Some (handle, doc) => <[handle := merge doc customer]> (customers w)
        | None => customers w ++ [newCustomer customer owner]
        end
      else customers w.
Proof.
  unfold syncCustomer. destruct (truthy (field customer "id")); simpl.
  - unfold mbind, M_bind, call, onCustomers. simpl.
    destruct (list_find _ (customers w)) as [[handle doc]|]; simpl;
      eexists; split; reflexivity.
  - by exists w.
Qed.

(** The documents of other owners stand, and none is removed. *)
Definition othersKept (owner : Account) (w w' : World (D := list Customer) (W := W)) : Prop :=
  length (customers w) ≤ length (customers w') ∧
  ∀ j doc,
    customers w !! j = Some doc →
    value_eqb (field doc "ownerId") (account_id owner) = false →
    customers w' !! j = Some doc.

#[local] Instance othersKept_preorder owner : PreOrder (othersKept owner).
Proof.
  split.
  - by intros w.
  - intros w1 w2 w3 [Hlen12 H12] [Hlen23 H23]. split; [lia|].
    intros j doc Hj Hother. apply H23; [by apply H12|done].
Qed.

Lemma syncCustomer_othersKept owner customer :
  Keeps (othersKept owner) (syncCustomer owner customer).
Proof.
  intros w out w' Hrun.
  destruct (syncCustomer_customers owner customer w) as (w1 & Hrun1 & Hdocs).
  rewrite Hrun in Hrun1. injection Hrun1 as _ <-.
  unfold othersKept. rewrite Hdocs.
  destruct (truthy _); [|done].
  destruct (list_find _ (customers w)) as [[handle doc]|] eqn:Hfind.
  - apply list_find_Some in Hfind as (Hhandle & Hmatch & _).
    rewrite length_insert. split; [done|].
    intros j doc' Hj Hother. rewrite list_lookup_insert_ne; [done|].
    intros <-. rewrite Hhandle in Hj. injection Hj as <-.
    unfold matches in Hmatch. apply andb_true_iff in Hmatch as [_ Hmatch]. congruence.
  - rewrite length_app. split; [lia|].
    intros j doc Hj _. rewrite lookup_app_l; [done|]. by eapply lookup_lt_Some.
Qed.

(** X10.  Whatever the warehouse returns or throws, a sync for one owner
    removes no customer and leaves every customer whose [ownerId] is not
    that owner's id exactly as it was, at the place it was. *)
Theorem sync_keeps_other_owners fuel database owner
    (w : World (D := list Customer) (W := W)) out w' :
  handleDatabricksSync fuel database owner w = Some (out, w') →
  length (customers w) ≤ length (customers w') ∧
  ∀ j doc,
    customers w !! j = Some doc →
    value_eqb (field doc "ownerId") (account_id owner) = false →
    customers w' !! j = Some doc.
Proof.
  apply (Keeps_handleDatabricksSync (othersKept owner)).
  - by intros c w0 out0 w0' [= <- <-].
  - intros A op w0 out0 w0'. unfold onWarehouse. destruct (op _). by intros [= <- <-].
  - apply syncCustomer_othersKept.
Qed.

(** X11.  Syncing a row a second time changes no customer, whether the
    first sync created a customer or merged into one, provided the row has no
    [ownerId] and no [databricksId] column of its own: the customer written
    first is the one found again, and merging the same row into it gives it
    back. *)
Theorem resync_changes_nothing owner (customer : Row)
    (w : World (D := list Customer) (W := W)) :
  customer !! "ownerId" = None →
  customer !! "databricksId" = None →
  ∃ w1 w2,
    syncCustomer owner customer w = Some (Ok tt, w1) ∧
    syncCustomer owner customer w1 = Some (Ok tt, w2) ∧
    customers w2 = customers w1.
Proof.
  intros Hown Hdbx.
  destruct (syncCustomer_customers owner customer w) as (w1 & Hrun1 & Hdocs1).
  destruct (syncCustomer_customers owner customer w1) as (w2 & Hrun2 & Hdocs2).
  exists w1, w2. split; [done|]. split; [done|].
  rewrite Hdocs2. destruct (truthy (field customer "id")); [|done].
  set (P := λ d : Customer, matches (field customer "id") (account_id owner) d = true) in *.
  assert (∃ handle doc, list_find P (customers w1) = Some (handle, doc)
                        ∧ merge doc customer = doc) as (handle & doc & Hfind1 & Hfix).
  { rewrite Hdocs1.
    destruct (list_find P (customers w)) as [[handle doc]|] eqn:Hfind.
    - exists handle, (merge doc customer). split; [|apply merge_merge].
      apply list_find_Some in Hfind as (Hhandle & Hmatch & Hfirst).
      apply list_find_Some. split; [|split].
      + apply list_lookup_insert_eq. by eapply lookup_lt_Some.
      + unfold P. by rewrite matches_merge.
      + intros j y Hj Hlt. rewrite list_lookup_insert_ne in Hj by lia.
        by eapply Hfirst.
    - exists (0 + length (customers w)), (newCustomer customer owner).
      split; [|by apply merge_newCustomer].
      rewrite list_find_app_r by done. simpl.
      destruct (decide (P (newCustomer customer owner))) as [|Hno]; [done|].
      destruct Hno. apply matches_newCustomer. }
  rewrite Hfind1, Hfix. apply list_insert_id.
  by apply list_find_Some in Hfind1 as (? & _).
Qed.

End MemoryCustomers.

(** **** The processor on sample data *)

Definition sampleWorld (script : list (Outcome (list Row))) (docs : list Customer)
  : World (D := list Customer) (W := list (Outcome (list Row))) :=
  {| customers := docs; warehouse := script; lastSyncs := ∅; log := [] |}.

Definition sampleOwner : Account := {| account_id := VStr "acc-1" |}.

Definition sampleDatabase (t : DBType) : Database :=
  {| id := "db-1"; dbType := t; frequencyUnit := DAY; frequencyNumber := 1;
     lastSync := "Thu, 01 Jan 2026 00:00:00 GMT";
     databricksToken := Some "token"; databricksHost := None; databricksPath := None;
     query := "SELECT * FROM customers" |}.

Definition sampleJob (t : DBType) : Job :=
  {| integration := Some {| database := Some (sampleDatabase t); owner := sampleOwner |} |}.

Definition sampleParse (s : string) : number :=
  if String.eqb s "Thu, 01 Jan 2026 00:00:00 GMT" then Fin 1767225600000 else NaN.

Definition sampleUTCString (t : number) : string :=
  match t with
  | Fin 1767268800000 => "Thu, 01 Jan 2026 12:00:00 GMT"
  | Fin 1767398400000 => "Sat, 03 Jan 2026 00:00:00 GMT"
  | _ => "Invalid Date"
  end.

(** C2, as the specification words it, does not hold: when the first
    [fetchChunk] throws, the throw propagates and the run has issued no
    [close]. *)
Lemma fetch_error_skips_close :
  handleDatabricksSync 3 (sampleDatabase DATABRICKS) sampleOwner
    (sampleWorld [Throw "fetch failed"] [])
  = Some (Throw "fetch failed",
          {| customers := []; warehouse := []; lastSyncs := ∅;
             log := [Connect; OpenSession; ExecuteStatement "SELECT * FROM customers";
                     FetchChunk] |}).
Proof. reflexivity. Qed.

Lemma close_only_after_successful_fetch_witness :
  ∃ calls,
    [Connect; OpenSession; ExecuteStatement "SELECT * FROM customers";
     FetchChunk; HasMoreRows; CloseOperation] = [] ++ calls ∧
    (CloseSession ∉ calls) ∧
    ((∃ w1, openAndFetch 3 (sampleDatabase DATABRICKS) sampleOwner
              (sampleWorld [Ok [ {[ "name" := VStr "Ann" ]} ]] []) = Some (Ok tt, w1)) →
       ∃ before, calls = before ++ [CloseOperation] ∧ CloseOperation ∉ before) ∧
    (∀ e w1, openAndFetch 3 (sampleDatabase DATABRICKS) sampleOwner
               (sampleWorld [Ok [ {[ "name" := VStr "Ann" ]} ]] []) = Some (Throw e, w1) →
       Ok tt = Throw e ∧
       {| customers := []; warehouse := []; lastSyncs := ∅;
          log := [Connect; OpenSession; ExecuteStatement "SELECT * FROM customers";
                  FetchChunk; HasMoreRows; CloseOperation] |} = w1 ∧
       CloseOperation ∉ calls).
Proof.
  apply (close_only_after_successful_fetch 3 (sampleDatabase DATABRICKS) sampleOwner
           (sampleWorld [Ok [ {[ "name" := VStr "Ann" ]} ]] []) (Ok tt)
           {| customers := []; warehouse := []; lastSyncs := ∅;
              log := [Connect; OpenSession; ExecuteStatement "SELECT * FROM customers";
                      FetchChunk; HasMoreRows; CloseOperation] |}).
  reflexivity.
Defined.




Lemma postgresql_sync_only_stamps_witness :
  num_lt (timeClip (syncTime sampleParse (sampleDatabase POSTGRESQL)))
         (Fin (1767225600000 + 12 * hourMs)) = false ∧
  ∃ w',
    handleDatabaseSync sampleParse sampleUTCString 0
      (1767225600000 + 12 * hourMs) (1767225600000 + 12 * hourMs)
      (sampleJob POSTGRESQL) (sampleWorld [] [ {[ "name" := VStr "Ann" ]} ])
    = Some (Ok tt, w') ∧
    customers w' = [ {[ "name" := VStr "Ann" ]} ] ∧
    warehouse w' = [] ∧
    log w' = [] ++ [SaveDatabase "db-1" "Thu, 01 Jan 2026 12:00:00 GMT"] ∧
    lastSyncs w' = <["db-1" := "Thu, 01 Jan 2026 12:00:00 GMT"]> ∅.
Proof.
  split; [reflexivity|].
  apply (postgresql_sync_only_stamps sampleParse sampleUTCString 0
           (1767225600000 + 12 * hourMs) (1767225600000 + 12 * hourMs)
           (sampleJob POSTGRESQL)
           {| database := Some (sampleDatabase POSTGRESQL); owner := sampleOwner |}
           (sampleDatabase POSTGRESQL)
           (sampleWorld [] [ {[ "name" := VStr "Ann" ]} ])); reflexivity.
Defined.

Definition storedAnn : Customer :=
  {[ "databricksId" := VNum (Fin 7); "ownerId" := VStr "acc-1";
     "name" := VStr "Ann"; "plan" := VStr "free" ]}.

Definition rowAnn : Row := {[ "id" := VNum (Fin 7); "name" := VStr "Anna" ]}.

(** C5, as the specification words it, does not hold: a row does carry the
    identifying column, with the value 0, and no customer matches it; yet no
    customer is created. *)
Lemma row_with_zero_id_is_skipped :
  ({[ "id" := VNum (Fin 0); "name" := VStr "Ann" ]} : Row) !! "id" = Some (VNum (Fin 0)) ∧
  list_find (λ d, matches (VNum (Fin 0)) (account_id sampleOwner) d = true) [] = None ∧
  syncCustomer sampleOwner {[ "id" := VNum (Fin 0); "name" := VStr "Ann" ]} (sampleWorld [] [])
  = Some (Ok tt, sampleWorld [] []).
Proof. by repeat split. Qed.

Lemma warehouse_row_merged_or_created_witness :
  truthy (field rowAnn "id") = true ∧
  ∃ w',
    syncCustomer sampleOwner rowAnn (sampleWorld [] [storedAnn]) = Some (Ok tt, w') ∧
    customers w' = [ merge storedAnn rowAnn ] ∧
    merge storedAnn rowAnn !! "name" = Some (VStr "Anna") ∧
    merge storedAnn rowAnn !! "plan" = Some (VStr "free") ∧
    merge storedAnn rowAnn !! "id" = None.
Proof.
  split; [reflexivity|].
  destruct (warehouse_row_merged_or_created sampleOwner rowAnn (sampleWorld [] [storedAnn]))
    as (_ & Hfound & _).
  destruct (Hfound eq_refl 0 storedAnn eq_refl)
    as (w' & Hrun & Hdocs & Hwritten & Hkept & _).
  exists w'. split; [exact Hrun|]. split; [exact Hdocs|].
  split; [by apply Hwritten|].
  split; [rewrite Hkept; [reflexivity | by left] | rewrite Hkept; [reflexivity | by right]].
Defined.

Definition storedBob : Customer :=
  {[ "databricksId" := VNum (Fin 7); "ownerId" := VStr "acc-2"; "name" := VStr "Bob" ]}.

Lemma lastSync_moves_only_on_completion_witness :
  handleDatabaseSync sampleParse sampleUTCString 3
    (1767225600000 + 12 * hourMs) (1767225600000 + 12 * hourMs)
    (sampleJob DATABRICKS) (sampleWorld [Throw "fetch failed"] [])
  = Some (Throw "fetch failed",
          {| customers := []; warehouse := []; lastSyncs := ∅;
             log := [Connect; OpenSession; ExecuteStatement "SELECT * FROM customers";
                     FetchChunk] |}) ∧
  (∅ : gmap string string) = lastSyncs (sampleWorld [Throw "fetch failed"] []).
Proof.
  split; [reflexivity|].
  exact (lastSync_moves_only_on_completion sampleParse sampleUTCString 3
           (1767225600000 + 12 * hourMs) (1767225600000 + 12 * hourMs)
           (sampleJob DATABRICKS) (sampleWorld [Throw "fetch failed"] [])
           (Throw "fetch failed")
           {| customers := []; warehouse := []; lastSyncs := ∅;
              log := [Connect; OpenSession; ExecuteStatement "SELECT * FROM customers";
                      FetchChunk] |}
           eq_refl).
Defined.

Lemma skipped_task_stays_skipped_witness :
  handleDatabaseSync sampleParse sampleUTCString 3
    (1767225600000 + 2 * dayMs) (1767225600000 + 2 * dayMs)
    (sampleJob DATABRICKS) (sampleWorld [] [])
  = Some (Ok tt, sampleWorld [] []) ∧
  handleDatabaseSync sampleParse sampleUTCString 0
    (1767225600000 + 30 * dayMs) (1767225600000 + 30 * dayMs)
    (sampleJob DATABRICKS) (sampleWorld [Ok [rowAnn]] [storedAnn])
  = Some (Ok tt, sampleWorld [Ok [rowAnn]] [storedAnn]).
Proof.
  split; [reflexivity|].
  apply (skipped_task_stays_skipped sampleParse sampleUTCString 3 0
           (1767225600000 + 2 * dayMs) (1767225600000 + 30 * dayMs)
           (1767225600000 + 2 * dayMs) (1767225600000 + 30 * dayMs)
           (sampleJob DATABRICKS) (sampleWorld [] [])).
  - reflexivity.
  - unfold dayMs, hourMs. lia.
Defined.

Lemma sync_keeps_other_owners_witness :
  handleDatabricksSync 3 (sampleDatabase DATABRICKS) sampleOwner
    (sampleWorld [Ok [rowAnn]] [storedBob])
  = Some (Ok tt,
          {| customers := [storedBob; newCustomer rowAnn sampleOwner];
             warehouse := []; lastSyncs := ∅;
             log := [Connect; OpenSession; ExecuteStatement "SELECT * FROM customers";
                     FetchChunk; FindOne (VNum (Fin 7)) (VStr "acc-1");
                     Create (newCustomer rowAnn sampleOwner);
                     HasMoreRows; CloseOperation] |}) ∧
  [storedBob; newCustomer rowAnn sampleOwner] !! 0 = Some storedBob.
Proof.
  split; [reflexivity|].
  destruct (sync_keeps_other_owners 3 (sampleDatabase DATABRICKS) sampleOwner
              (sampleWorld [Ok [rowAnn]] [storedBob]) (Ok tt)
              {| customers := [storedBob; newCustomer rowAnn sampleOwner];
                 warehouse := []; lastSyncs := ∅;
                 log := [Connect; OpenSession; ExecuteStatement "SELECT * FROM customers";
                         FetchChunk; FindOne (VNum (Fin 7)) (VStr "acc-1");
                         Create (newCustomer rowAnn sampleOwner);
                         HasMoreRows; CloseOperation] |}) as [_ Hkept];
    [reflexivity|].
  apply (Hkept 0 storedBob); reflexivity.
Defined.

Lemma resync_changes_nothing_witness :
  rowAnn !! "ownerId" = None ∧
  rowAnn !! "databricksId" = None ∧
  ∃ w1 w2,
    syncCustomer sampleOwner rowAnn (sampleWorld [] [storedBob]) = Some (Ok tt, w1) ∧
    syncCustomer sampleOwner rowAnn w1 = Some (Ok tt, w2) ∧
    customers w2 = customers w1.
Proof.
  split; [reflexivity|]. split; [reflexivity|].
  apply (resync_changes_nothing sampleOwner rowAnn (sampleWorld [] [storedBob]));
    reflexivity.
Defined.

End IntegrationsProcessor.
